(** * An insertion-only AVL tree over strings, ordered by a caller-supplied
      predicate

    Shallow embedding of the Go program: [Node] with its methods [Insert],
    [rotateLeft], [rotateRight], [rotateRightLeft], [rotateLeftRight] and
    [rebalance], and [Tree] with [Insert], [rebalance] and [Traverse].

    Modelling decisions.
    - A value of type [Node] stands for a Go [*Node]: [Nil] is the nil
      pointer, [Mk v l r b] a pointer to a struct with those four fields.
      Every node of the program has exactly one owner (a parent's child slot
      or [Tree.Root]), so the heap reachable from a pointer is the tree
      below it and in-place mutation is modelled by returning the updated
      tree.
    - Dereferencing nil panics in Go.  Every method is a function into
      [option]: [None] is that panic, [Some] a normal return.
    - A method that takes [(n, c)] with [c] one of [n]'s children takes the
      parent [n] and the [Slot] that holds [c].  The pointer comparison
      [c == n.Left] is the test that the slot is [AtLeft].
    - [bal] is a Go [int], taken as 64 bits wide; [n.bal++] and [n.bal--]
      wrap around.
    - [Dump] and the program ([less] and [main]) print: what has been
      printed is a list with one element for each call of a print function.
      The program reads lines from a [bufio.Reader]; a read error other than
      [io.EOF] is outside the model.  [strings.TrimSpace] and
      [strings.ToLower] are parameters of the program. *)

From Stdlib Require Import ZArith List String Ascii Bool Lia.
From Stdlib Require Import Sorting.Sorted Sorting.Permutation.
From Stdlib Require Import Structures.OrderedTypeEx.
From Stdlib Require Import DecimalString.
Import ListNotations.
Local Open Scope Z_scope.

(** ** Go's [int] *)

Module GoInt.

Definition min_int : Z := - 2 ^ 63.
Definition max_int : Z := 2 ^ 63 - 1.

Definition wrap (z : Z) : Z := (z + 2 ^ 63) mod 2 ^ 64 - 2 ^ 63.

(** [x++] and [x--] *)
Definition incr (x : Z) : Z := wrap (x + 1).
Definition decr (x : Z) : Z := wrap (x - 1).

End GoInt.

(** ** Errors: a nil dereference aborts the call *)

Definition bind {A B : Type} (m : option A) (k : A -> option B) : option B :=
  match m with
  | Some a => k a
  | None => None
  end.

Notation "x <- m ;; k" := (bind m (fun x => k))
  (at level 61, m at next level, right associativity).
Notation "' p <- m ;; k" := (bind m (fun x => let p := x in k))
  (at level 61, p pattern, m at next level, right associativity).

(** Go's [a && b] where evaluating [b] may panic: [b] is evaluated only when
    [a] is true. *)
Definition and_then (a : bool) (b : option bool) : option bool :=
  if a then b else Some false.

(** ** Node *)

Inductive Node : Type :=
| Nil : Node
| Mk (Value : string) (Left Right : Node) (bal : Z) : Node.

(** [&Node{Value: value}] *)
Definition new_Node (value : string) : Node := Mk value Nil Nil 0.

Definition is_nil (n : Node) : bool :=
  match n with
  | Nil => true
  | Mk _ _ _ _ => false
  end.

(** Field reads through a pointer. *)
Definition get_Left (n : Node) : option Node :=
  match n with Nil => None | Mk _ l _ _ => Some l end.
Definition get_Right (n : Node) : option Node :=
  match n with Nil => None | Mk _ _ r _ => Some r end.
Definition get_bal (n : Node) : option Z :=
  match n with Nil => None | Mk _ _ _ b => Some b end.

(** Field writes through a pointer. *)
Definition set_Left (n l' : Node) : option Node :=
  match n with Nil => None | Mk v _ r b => Some (Mk v l' r b) end.
Definition set_Right (n r' : Node) : option Node :=
  match n with Nil => None | Mk v l _ b => Some (Mk v l r' b) end.
Definition set_bal (n : Node) (b' : Z) : option Node :=
  match n with Nil => None | Mk v l r _ => Some (Mk v l r b') end.

(** The child slot of a parent through which a child is reached. *)
Inductive Slot : Type := AtLeft | AtRight.

Definition get_child (n : Node) (s : Slot) : option Node :=
  match s with
  | AtLeft => get_Left n
  | AtRight => get_Right n
  end.

(** [if c == n.Left { n.Left = x } else { n.Right = x }] *)
Definition redirect (n : Node) (s : Slot) (x : Node) : option Node :=
  match s with
  | AtLeft => set_Left n x
  | AtRight => set_Right n x
  end.

(** *** Rotations *)

Definition rotateLeft (n : Node) (s : Slot) : option Node :=
  c <- get_child n s ;;
  match c with
  | Nil => None
  | Mk cv cl r _ =>
      match r with
      | Nil => None
      | Mk rv rl rr _ => redirect n s (Mk rv (Mk cv cl rl 0) rr 0)
      end
  end.

Definition rotateRight (n : Node) (s : Slot) : option Node :=
  c <- get_child n s ;;
  match c with
  | Nil => None
  | Mk cv l cr _ =>
      match l with
      | Nil => None
      | Mk lv ll lr _ => redirect n s (Mk lv ll (Mk cv lr cr 0) 0)
      end
  end.

Definition rotateRightLeft (n : Node) (s : Slot) : option Node :=
  c <- get_child n s ;;
  (* c.Right.Left.bal = 1 *)
  r <- get_Right c ;;
  rl <- get_Left r ;;
  rl <- set_bal rl 1 ;;
  r <- set_Left r rl ;;
  c <- set_Right c r ;;
  (* c.rotateRight(c.Right) *)
  c <- rotateRight c AtRight ;;
  (* c.Right.bal = 1 *)
  r <- get_Right c ;;
  r <- set_bal r 1 ;;
  c <- set_Right c r ;;
  (* n.rotateLeft(c) *)
  n <- redirect n s c ;;
  rotateLeft n s.

Definition rotateLeftRight (n : Node) (s : Slot) : option Node :=
  c <- get_child n s ;;
  (* c.Left.Right.bal = -1 *)
  l <- get_Left c ;;
  lr <- get_Right l ;;
  lr <- set_bal lr (-1) ;;
  l <- set_Right l lr ;;
  c <- set_Left c l ;;
  (* c.rotateLeft(c.Left) *)
  c <- rotateLeft c AtLeft ;;
  (* c.Left.bal = -1 *)
  l <- get_Left c ;;
  l <- set_bal l (-1) ;;
  c <- set_Left c l ;;
  (* n.rotateRight(c) *)
  n <- redirect n s c ;;
  rotateRight n s.

(** *** rebalance: a [switch] over four guarded cases and no default *)

Definition rebalance (n : Node) (s : Slot) : option Node :=
  c <- get_child n s ;;
  cb <- get_bal c ;;
  t <- and_then (cb =? -2) (l <- get_Left c ;; b <- get_bal l ;; Some (b =? -1)) ;;
  if t then rotateRight n s else
  t <- and_then (cb =? 2) (r <- get_Right c ;; b <- get_bal r ;; Some (b =? 1)) ;;
  if t then rotateLeft n s else
  t <- and_then (cb =? -2) (l <- get_Left c ;; b <- get_bal l ;; Some (b =? 1)) ;;
  if t then rotateLeftRight n s else
  t <- and_then (cb =? 2) (r <- get_Right c ;; b <- get_bal r ;; Some (b =? -1)) ;;
  if t then rotateRightLeft n s else
  Some n.

(** *** Insert *)

(** [c.bal < -1 || c.bal > 1] *)
Definition out_of_range (b : Z) : bool := (b <? -1) || (b >? 1).

Fixpoint Insert (less : string -> string -> bool) (value : string) (n : Node)
  : option (Node * bool) :=
  match n with
  | Nil => None
  | Mk v l r b =>
      n' <- (if less value v then
               match l with
               | Nil =>
                   Some (Mk v (new_Node value) r (if is_nil r then -1 else 0))
               | Mk _ _ _ _ =>
                   '(l', grew) <- Insert less value l ;;
                   if grew then
                     lb <- get_bal l' ;;
                     if out_of_range lb then rebalance (Mk v l' r b) AtLeft
                     else Some (Mk v l' r (GoInt.decr b))
                   else Some (Mk v l' r b)
               end
             else
               match r with
               | Nil =>
                   Some (Mk v l (new_Node value) (if is_nil l then 1 else 0))
               | Mk _ _ _ _ =>
                   '(r', grew) <- Insert less value r ;;
                   if grew then
                     rb <- get_bal r' ;;
                     if out_of_range rb then rebalance (Mk v l r' b) AtRight
                     else Some (Mk v l r' (GoInt.incr b))
                   else Some (Mk v l r' b)
               end) ;;
      b' <- get_bal n' ;;
      Some (n', negb (b' =? 0))
  end.

(** ** Tree *)

Record Tree : Type := mkTree { Root : Node }.

(** [new(Tree)] *)
Definition new_Tree : Tree := {| Root := Nil |}.

Definition Tree_rebalance (t : Tree) : option Tree :=
  let fakeParent := Mk "fakeParent"%string (Root t) Nil 0 in
  fakeParent <- rebalance fakeParent AtLeft ;;
  root <- get_Left fakeParent ;;
  Some {| Root := root |}.

Definition Tree_Insert (less : string -> string -> bool) (value : string)
  (t : Tree) : option Tree :=
  match Root t with
  | Nil => Some {| Root := new_Node value |}
  | Mk _ _ _ _ =>
      '(root, _) <- Insert less value (Root t) ;;
      b <- get_bal root ;;
      if out_of_range b then Tree_rebalance {| Root := root |}
      else Some {| Root := root |}
  end.

(** [Traverse(n, f)]: the visitor [f] acts on a state of the caller. *)
Fixpoint Tree_Traverse {S : Type} (n : Node) (f : Node -> S -> S) (s : S) : S :=
  match n with
  | Nil => s
  | Mk _ l r _ => Tree_Traverse r f (f n (Tree_Traverse l f s))
  end.

(** The loop of [main]: [for _, el := range in { tree.Insert(el, less) }]. *)
Fixpoint insert_all (less : string -> string -> bool) (vs : list string)
  (t : Tree) : option Tree :=
  match vs with
  | [] => Some t
  | v :: vs' => t' <- Tree_Insert less v t ;; insert_all less vs' t'
  end.

(** The visitor of [main] emits [n.Value]; the state is the output so far. *)
Definition emit_Value (n : Node) (out : list string) : list string :=
  match n with
  | Nil => out
  | Mk v _ _ _ => out ++ [v]
  end.

Definition traversal (t : Tree) : list string :=
  Tree_Traverse (Root t) emit_Value [].

(** ** Measures and invariants *)

Fixpoint height (n : Node) : Z :=
  match n with
  | Nil => 0
  | Mk _ l r _ => 1 + Z.max (height l) (height r)
  end.

Fixpoint size (n : Node) : Z :=
  match n with
  | Nil => 0
  | Mk _ l r _ => size l + 1 + size r
  end.

(** Values in in-order (left, self, right). *)
Fixpoint inorder (n : Node) : list string :=
  match n with
  | Nil => []
  | Mk v l r _ => inorder l ++ v :: inorder r
  end.

(** Every node's [bal] is the measured height(right) - height(left). *)
Fixpoint bal_exact (n : Node) : Prop :=
  match n with
  | Nil => True
  | Mk _ l r b => b = height r - height l /\ bal_exact l /\ bal_exact r
  end.

(** Every node's [bal] is in {-1, 0, 1}. *)
Fixpoint bal_in_range (n : Node) : Prop :=
  match n with
  | Nil => True
  | Mk _ l r b => -1 <= b <= 1 /\ bal_in_range l /\ bal_in_range r
  end.

Definition avl (n : Node) : Prop := bal_in_range n /\ bal_exact n.

(** The same two invariants as executable checks. *)
Fixpoint bal_exactb (n : Node) : bool :=
  match n with
  | Nil => true
  | Mk _ l r b => (b =? height r - height l) && bal_exactb l && bal_exactb r
  end.

Fixpoint bal_in_rangeb (n : Node) : bool :=
  match n with
  | Nil => true
  | Mk _ l r b => (-1 <=? b) && (b <=? 1) && bal_in_rangeb l && bal_in_rangeb r
  end.

Definition avlb (n : Node) : bool := bal_in_rangeb n && bal_exactb n.

(** What keeps the methods from dereferencing nil: a node whose [bal] is
    positive has a right child, and one whose [bal] is negative has a left
    child. *)
Fixpoint ok (n : Node) : Prop :=
  match n with
  | Nil => True
  | Mk _ l r b =>
      (0 < b -> is_nil r = false) /\ (b < 0 -> is_nil l = false) /\
      ok l /\ ok r
  end.

(** What [Insert] hands to its caller: every node below the root has [bal]
    in {-1, 0, 1}, and the root either has that too, or has [bal = -2] with
    a left child of [bal] -1 or +1, or [bal = 2] with a right child of [bal]
    +1 or -1. *)
Definition in_range_below (n : Node) : Prop :=
  match n with
  | Nil => True
  | Mk _ l r b =>
      bal_in_range l /\ bal_in_range r /\
      (-1 <= b <= 1 \/
       (b = -2 /\ exists lb, get_bal l = Some lb /\ (lb = -1 \/ lb = 1)) \/
       (b = 2 /\ exists rb, get_bal r = Some rb /\ (rb = 1 \/ rb = -1)))
  end.

(** ** The ordering predicate *)

(** A consistent [less]: the strict part of a total preorder (irreflexive,
    transitive, and "not less" is transitive too). *)
Definition consistent (less : string -> string -> bool) : Prop :=
  (forall a, less a a = false) /\
  (forall a b c, less a b = true -> less b c = true -> less a c = true) /\
  (forall a b c, less a b = false -> less b c = false -> less a c = false).

(** No two different values tie under the predicate. *)
Definition total (less : string -> string -> bool) : Prop :=
  forall a b, a <> b -> less a b = true \/ less b a = true.

(** No two different values of the list tie under the predicate. *)
Definition no_ties (less : string -> string -> bool) (vs : list string) : Prop :=
  forall a b, In a vs -> In b vs -> a <> b ->
              less a b = true \/ less b a = true.

(** Non-decreasing under [less]: no later element is less than an earlier
    one. *)
Definition ascending (less : string -> string -> bool) (l : list string) : Prop :=
  StronglySorted (fun a b => less b a = false) l.

(** Insertion into a list after every element that is not greater. *)
Fixpoint linsert (less : string -> string -> bool) (v : string)
  (l : list string) : list string :=
  match l with
  | [] => [v]
  | x :: l' => if less v x then v :: l else x :: linsert less v l'
  end.

(** Stable insertion sort: the elements inserted one by one, first to last. *)
Definition isort (less : string -> string -> bool) (vs : list string)
  : list string :=
  fold_left (fun acc v => linsert less v acc) vs [].

(** The values in in-order after [value] has been put where the descent of
    [Insert] ends. *)
Fixpoint descend (less : string -> string -> bool) (value : string) (n : Node)
  : list string :=
  match n with
  | Nil => [value]
  | Mk v l r _ =>
      if less value v then descend less value l ++ v :: inorder r
      else inorder l ++ v :: descend less value r
  end.

(** ** Two ordering predicates *)

(** Go's [a < b] on strings: byte-wise lexicographic order. *)
Definition lex_less (a b : string) : bool := String.ltb a b.

(** Order by length only: two different strings of one length tie. *)
Definition shorter (a b : string) : bool :=
  (String.length a <? String.length b)%nat.

(** ** The dispatch table of rebalance, as the specification words it *)

Inductive Rotation : Type :=
| RotateRight | RotateLeftRight | RotateLeft | RotateRightLeft.

(** The row of the table that [(child.bal, overweight-side child's bal)]
    selects: -2/-1, -2/+1, +2/+1, +2/-1; [None] when no row matches. *)
Definition table_row (c : Node) : option Rotation :=
  match c with
  | Nil => None
  | Mk _ l r cb =>
      if cb =? -2 then
        match l with
        | Nil => None
        | Mk _ _ _ lb =>
            if lb =? -1 then Some RotateRight
            else if lb =? 1 then Some RotateLeftRight
            else None
        end
      else if cb =? 2 then
        match r with
        | Nil => None
        | Mk _ _ _ rb =>
            if rb =? 1 then Some RotateLeft
            else if rb =? -1 then Some RotateRightLeft
            else None
        end
      else None
  end.

(** The overweight-side child that [rebalance] reads is there. *)
Definition overweight_side_present (c : Node) : Prop :=
  match c with
  | Nil => False
  | Mk _ l r cb =>
      (cb = -2 -> is_nil l = false) /\ (cb = 2 -> is_nil r = false)
  end.

(** The search-tree order at every node: no value of the left subtree is
    greater than the node's value, no value of the right subtree is less. *)
Fixpoint search_ordered (less : string -> string -> bool) (n : Node) : Prop :=
  match n with
  | Nil => True
  | Mk v l r _ =>
      Forall (fun a => less v a = false) (inorder l) /\
      Forall (fun b => less b v = false) (inorder r) /\
      search_ordered less l /\ search_ordered less r
  end.

(** ** Dump *)

(** The line feed and the double quote. *)
Definition nl : string := String "010"%char EmptyString.
Definition dq : string := String "034"%char EmptyString.

(** [x * y] on [int]. *)
Definition int_mul (x y : Z) : Z := GoInt.wrap (x * y).

Fixpoint repeat_string (s : string) (k : nat) : string :=
  match k with
  | O => EmptyString
  | S k' => (s ++ repeat_string s k')%string
  end.

(** [strings.Repeat(s, count)]: it panics when [count] is negative or the
    length of the result overflows [int]. *)
Definition Repeat (s : string) (count : Z) : option string :=
  if (count <? 0) || (GoInt.max_int <? Z.of_nat (String.length s) * count)
  then None
  else Some (repeat_string s (Z.to_nat count)).

(** The verb [%d] of [fmt.Printf] on an [int]. *)
Definition format_d (z : Z) : string := NilZero.string_of_int (Z.to_int z).

(** [fmt.Printf("%s%s[%d]\n", indent, n.Value, n.bal)] *)
Definition Dump_line (indent value : string) (b : Z) : string :=
  (indent ++ value ++ "[" ++ format_d b ++ "]" ++ nl)%string.

(** [Dump(i, lr)]; [out] is what has been printed so far, one element for
    each call of a print function. *)
Fixpoint Dump (n : Node) (i : Z) (lr : string) (out : list string)
  : option (list string) :=
  match n with
  | Nil => Some out
  | Mk v l r b =>
      indent <- (if i >? 0 then
                   spaces <- Repeat " " (int_mul (GoInt.decr i) 4) ;;
                   Some (spaces ++ "+" ++ lr ++ "--")%string
                 else Some EmptyString) ;;
      let out := out ++ [Dump_line indent v b] in
      out <- Dump l (GoInt.incr i) "L" out ;;
      Dump r (GoInt.incr i) "R" out
  end.

Definition Tree_Dump (t : Tree) (out : list string) : option (list string) :=
  Dump (Root t) 0 "" out.

(** The nodes in pre-order (self, left, right), each with its value and
    [bal]. *)
Fixpoint preorder (n : Node) : list (string * Z) :=
  match n with
  | Nil => []
  | Mk v l r b => (v, b) :: preorder l ++ preorder r
  end.

(** ** The command-line program *)

(** A [bufio.Reader] on which only [ReadString('\n')] is called: the lines
    it will return, each with its line feed, and the text after the last
    line feed, which comes with [io.EOF]. *)
Record Reader : Type := mkReader { pending : list string; rest : string }.

(** The lines of a text. *)
Fixpoint lines_of (s : string) : list string * string :=
  match s with
  | EmptyString => ([], EmptyString)
  | String c s' =>
      let '(ls, tl) := lines_of s' in
      if Ascii.eqb c "010"%char then (nl :: ls, tl)
      else match ls with
           | [] => ([], String c tl)
           | l :: ls' => (String c l :: ls', tl)
           end
  end.

(** [bufio.NewReader] on a source that holds [s]. *)
Definition NewReader (s : string) : Reader :=
  let '(ls, tl) := lines_of s in {| pending := ls; rest := tl |}.

(** [ReadString('\n')]: the line, whether [err] is [io.EOF], and the reader
    afterwards. *)
Definition ReadString (r : Reader) : string * bool * Reader :=
  match pending r with
  | line :: ls => (line, false, {| pending := ls; rest := rest r |})
  | [] => (rest r, true, {| pending := []; rest := EmptyString |})
  end.

(** The process as the program sees it: the reader [stdin] and what has been
    printed, one element for each call of a print function. *)
Record World : Type := mkWorld { stdin : Reader; stdout : list string }.

Inductive Failure : Type :=
| NilDereference      (* a field of a nil [*Node] *)
| IndexOutOfRange     (* [os.Args[0]] of an empty [os.Args] *)
| ReadFailed          (* [panic(err)] after [ReadString] *)
| OpenFailed          (* [panic(err)] after [os.Open] *)
| NoInput.            (* [panic("no input")] *)

Inductive Res (A : Type) : Type :=
| Ok (a : A) (w : World)
| Panic (f : Failure) (w : World).

Arguments Ok {A} a w.
Arguments Panic {A} f w.

Definition IO (A : Type) : Type := World -> Res A.

Definition ret {A : Type} (a : A) : IO A := fun w => Ok a w.

Definition bindIO {A B : Type} (m : IO A) (k : A -> IO B) : IO B :=
  fun w => match m w with
           | Ok a w' => k a w'
           | Panic f w' => Panic f w'
           end.

Notation "x <~ m ;; k" := (bindIO m (fun x => k))
  (at level 61, m at next level, right associativity).
Notation "' p <~ m ;; k" := (bindIO m (fun x => let p := x in k))
  (at level 61, p pattern, m at next level, right associativity).

(** A step of the tree code inside the program: a nil dereference panics. *)
Definition lift {A : Type} (o : option A) : IO A :=
  fun w => match o with
           | Some a => Ok a w
           | None => Panic NilDereference w
           end.

Definition print (s : string) : IO unit :=
  fun w => Ok tt {| stdin := stdin w; stdout := stdout w ++ [s] |}.

(** [Insert] and [Tree.Insert] with a predicate that acts on the process, as
    the [less] of the program does. *)
Fixpoint Insert_io (less : string -> string -> IO bool) (value : string)
  (n : Node) : IO (Node * bool) :=
  match n with
  | Nil => lift None
  | Mk v l r b =>
      lt <~ less value v ;;
      n' <~ (if lt then
               match l with
               | Nil =>
                   ret (Mk v (new_Node value) r (if is_nil r then -1 else 0))
               | Mk _ _ _ _ =>
                   '(l', grew) <~ Insert_io less value l ;;
                   if grew then
                     lb <~ lift (get_bal l') ;;
                     if out_of_range lb
                     then lift (rebalance (Mk v l' r b) AtLeft)
                     else ret (Mk v l' r (GoInt.decr b))
                   else ret (Mk v l' r b)
               end
             else
               match r with
               | Nil =>
                   ret (Mk v l (new_Node value) (if is_nil l then 1 else 0))
               | Mk _ _ _ _ =>
                   '(r', grew) <~ Insert_io less value r ;;
                   if grew then
                     rb <~ lift (get_bal r') ;;
                     if out_of_range rb
                     then lift (rebalance (Mk v l r' b) AtRight)
                     else ret (Mk v l r' (GoInt.incr b))
                   else ret (Mk v l r' b)
               end) ;;
      b' <~ lift (get_bal n') ;;
      ret (n', negb (b' =? 0))
  end.

Definition Tree_Insert_io (less : string -> string -> IO bool)
  (value : string) (t : Tree) : IO Tree :=
  match Root t with
  | Nil => ret {| Root := new_Node value |}
  | Mk _ _ _ _ =>
      '(root, _) <~ Insert_io less value (Root t) ;;
      b <~ lift (get_bal root) ;;
      if out_of_range b then lift (Tree_rebalance {| Root := root |})
      else ret {| Root := root |}
  end.

(** [for _, el := range in { tree.Insert(el, less) }] *)
Fixpoint insert_all_io (less : string -> string -> IO bool)
  (vs : list string) (t : Tree) : IO Tree :=
  match vs with
  | [] => ret t
  | v :: vs' => t' <~ Tree_Insert_io less v t ;; insert_all_io less vs' t'
  end.

(** The visitor of [main]: [fmt.Printf("%s\n", n.Value)]. *)
Definition emit_line (n : Node) (out : list string) : list string :=
  match n with
  | Nil => out
  | Mk v _ _ _ => out ++ [(v ++ nl)%string]
  end.

Section Program.

(** [strings.TrimSpace] and [strings.ToLower] of Go's library. *)
Variable TrimSpace : string -> string.
Variable ToLower : string -> string.

(** The prompt of [less] and its complaint. *)
Definition prompt (a b : string) : string :=
  (nl ++ "a) " ++ a ++ nl ++ "b) " ++ b ++ nl ++
   "Which is higher priority? [a, b] > ")%string.

Definition complaint : string :=
  ("Invalid choice, must be " ++ dq ++ "a" ++ dq ++ " or " ++ dq ++ "b" ++ dq ++
   ", try again" ++ nl)%string.

(** The loop of [less], by recursion on the lines that [stdin] still holds:
    each round prints the prompt and reads one line. *)
Fixpoint less_loop (a b : string) (lines : list string) (tl : string)
  (out : list string) : Res bool :=
  let out := out ++ [prompt a b] in
  match lines with
  | [] =>
      Panic ReadFailed
        {| stdin := {| pending := []; rest := EmptyString |}; stdout := out |}
  | line :: lines' =>
      let w := {| stdin := {| pending := lines'; rest := tl |};
                  stdout := out |} in
      let choice := ToLower (TrimSpace line) in
      if String.eqb choice "a" then Ok true w
      else if String.eqb choice "b" then Ok false w
      else less_loop a b lines' tl (out ++ [complaint])
  end.

Definition less (a b : string) : IO bool :=
  fun w => less_loop a b (pending (stdin w)) (rest (stdin w)) (stdout w).

(** The loop of [main] over the lines of the file: it stops at [io.EOF], and
    keeps the lines that are not blank, trimmed. *)
Fixpoint read_elements (lines : list string) : list string :=
  match lines with
  | [] => []
  | line :: lines' =>
      let el := TrimSpace line in
      if String.eqb el "" then read_elements lines'
      else el :: read_elements lines'
  end.

Definition done_message : string :=
  ("You're done sorting! Hit enter for the output (highest priority to lowest)"
   ++ nl)%string.

(** [main], given [os.Args] and the files that [os.Open] finds. *)
Definition main (args : list string) (files : string -> option string)
  : IO unit :=
  match args with
  | [] => fun w => Panic IndexOutOfRange w
  | [arg0] => print ("Usage: " ++ arg0 ++ " filename" ++ nl)%string
  | _ :: filename :: _ =>
      match files filename with
      | None => fun w => Panic OpenFailed w
      | Some content =>
          let input := read_elements (pending (NewReader content)) in
          match input with
          | [] => fun w => Panic NoInput w
          | _ :: _ =>
              tree <~ insert_all_io less input new_Tree ;;
              _ <~ print done_message ;;
              fun w =>
                let '(_, err, r) := ReadString (stdin w) in
                let w := {| stdin := r; stdout := stdout w |} in
                if err then Panic ReadFailed w
                else Ok tt {| stdin := r;
                              stdout := Tree_Traverse (Root tree) emit_line
                                          (stdout w) |}
          end
      end
  end.

End Program.

(** ** What the user is asked *)

(** The values that [Insert] compares the new value with, from the receiver
    down, when the predicate answers as [ord]. *)
Fixpoint descent (ord : string -> string -> bool) (value : string) (n : Node)
  : list string :=
  match n with
  | Nil => []
  | Mk v l r _ =>
      v :: (if ord value v then descent ord value l else descent ord value r)
  end.

(** The pairs that the insertions of [vs] into [t], one after the other,
    compare. *)
Fixpoint comparisons (ord : string -> string -> bool) (vs : list string)
  (t : Tree) : list (string * string) :=
  match vs with
  | [] => []
  | x :: vs' =>
      map (pair x) (descent ord x (Root t)) ++
      match Tree_Insert ord x t with
      | Some t' => comparisons ord vs' t'
      | None => []
      end
  end.

(** A line typed at the prompt for the pair [q] says what [ord] says: it
    reads a when the first is less and b when it is not. *)
Definition answers (TrimSpace ToLower : string -> string)
  (ord : string -> string -> bool) (line : string) (q : string * string)
  : Prop :=
  ToLower (TrimSpace line) = if ord (fst q) (snd q) then "a"%string else "b"%string.

(** A line typed at the prompt that [less] does not accept. *)
Definition invalid_line (TrimSpace ToLower : string -> string) (line : string)
  : Prop :=
  ToLower (TrimSpace line) <> "a"%string /\
  ToLower (TrimSpace line) <> "b"%string.

(** A text without line feed. *)
Fixpoint no_nl (s : string) : bool :=
  match s with
  | EmptyString => true
  | String c s' => negb (Ascii.eqb c "010"%char) && no_nl s'
  end.

(** The text of a file whose lines are [ls], each ended by a line feed,
    followed by [tl]. *)
Fixpoint file_text (ls : list string) (tl : string) : string :=
  match ls with
  | [] => tl
  | l :: ls' => (l ++ nl ++ file_text ls' tl)%string
  end.

(** [strings.TrimSpace] and [strings.ToLower] on ASCII text. *)
Definition is_space (c : ascii) : bool :=
  let k := nat_of_ascii c in
  ((9 <=? k) && (k <=? 13) || (k =? 32))%nat.

Fixpoint trim_left (s : string) : string :=
  match s with
  | EmptyString => EmptyString
  | String c s' => if is_space c then trim_left s' else s
  end.

Fixpoint trim_right (s : string) : string :=
  match s with
  | EmptyString => EmptyString
  | String c s' =>
      let t := trim_right s' in
      if is_space c && String.eqb t "" then EmptyString else String c t
  end.

Definition TrimSpace_ascii (s : string) : string := trim_right (trim_left s).

Definition lower (c : ascii) : ascii :=
  let k := nat_of_ascii c in
  if ((65 <=? k) && (k <=? 90))%nat then ascii_of_nat (k + 32) else c.

Fixpoint ToLower_ascii (s : string) : string :=
  match s with
  | EmptyString => EmptyString
  | String c s' => String (lower c) (ToLower_ascii s')
  end.

(** * Basic facts *)

Lemma wrap_id (z : Z) :
  GoInt.min_int <= z <= GoInt.max_int -> GoInt.wrap z = z.
Proof.
  unfold GoInt.min_int, GoInt.max_int, GoInt.wrap. intros H.
  rewrite Z.mod_small; lia.
Qed.

Lemma decr_small (b : Z) : -1 <= b <= 1 -> GoInt.decr b = b - 1.
Proof.
  intros H. unfold GoInt.decr. apply wrap_id.
  unfold GoInt.min_int, GoInt.max_int. lia.
Qed.

Lemma incr_small (b : Z) : -1 <= b <= 1 -> GoInt.incr b = b + 1.
Proof.
  intros H. unfold GoInt.incr. apply wrap_id.
  unfold GoInt.min_int, GoInt.max_int. lia.
Qed.

Lemma out_of_range_false (b : Z) : out_of_range b = false -> -1 <= b <= 1.
Proof.
  unfold out_of_range. rewrite orb_false_iff, Z.ltb_ge, Z.gtb_ltb, Z.ltb_ge.
  lia.
Qed.

Lemma height_nonneg (n : Node) : 0 <= height n.
Proof. induction n; cbn [height]; lia. Qed.

Lemma size_inorder (n : Node) : size n = Z.of_nat (List.length (inorder n)).
Proof.
  induction n as [|v l IHl r IHr b]; simpl; [reflexivity|].
  rewrite length_app. simpl. lia.
Qed.

Lemma is_nil_false (n : Node) :
  is_nil n = false -> exists v l r b, n = Mk v l r b.
Proof. destruct n; simpl; [discriminate|]. intros _. eauto. Qed.

Lemma Traverse_emit (n : Node) (out : list string) :
  Tree_Traverse n emit_Value out = out ++ inorder n.
Proof.
  revert out. induction n as [|v l IHl r IHr b]; intros out; simpl.
  - now rewrite app_nil_r.
  - rewrite IHr, IHl. now rewrite <- !app_assoc.
Qed.

Lemma traversal_inorder (t : Tree) : traversal t = inorder (Root t).
Proof. unfold traversal. now rewrite Traverse_emit. Qed.

Lemma bal_exactb_spec (n : Node) : bal_exactb n = true <-> bal_exact n.
Proof.
  induction n as [|v l IHl r IHr b]; simpl; [tauto|].
  rewrite !andb_true_iff, Z.eqb_eq. tauto.
Qed.

Lemma bal_in_rangeb_spec (n : Node) : bal_in_rangeb n = true <-> bal_in_range n.
Proof.
  induction n as [|v l IHl r IHr b]; simpl; [tauto|].
  rewrite !andb_true_iff, !Z.leb_le. tauto.
Qed.

Lemma avlb_spec (n : Node) : avlb n = true <-> avl n.
Proof.
  unfold avlb, avl. rewrite andb_true_iff, bal_exactb_spec, bal_in_rangeb_spec.
  tauto.
Qed.

(** * Rotations and rebalance act on the subtree below the slot *)

Ltac unfold_methods H :=
  unfold rebalance, rotateRightLeft, rotateLeftRight, rotateLeft, rotateRight,
    and_then, bind, get_child, redirect, get_Left, get_Right, get_bal,
    set_Left, set_Right, set_bal in H.

(** Case analysis along the [match]es of a hypothesis [H : ... = Some _]. *)
Ltac break H :=
  repeat match type of H with
         | context [match ?x with _ => _ end] =>
             destruct x eqn:?; cbv beta iota in H; try discriminate H
         end.

Ltac list_eq :=
  cbn [inorder]; repeat progress (rewrite <- ?app_assoc; cbn [app]); reflexivity.

Ltac shapes c :=
  destruct c as [|? [|? ? [|? ? ? ?] ?] [|? [|? ? ? ?] ? ?] ?].

Lemma rotateLeft_Some (n : Node) (s : Slot) cv cl rv rl rr rb cb :
  get_child n s = Some (Mk cv cl (Mk rv rl rr rb) cb) ->
  rotateLeft n s = redirect n s (Mk rv (Mk cv cl rl 0) rr 0).
Proof. intros H. unfold rotateLeft. now rewrite H. Qed.

Lemma rotateRight_Some (n : Node) (s : Slot) cv lv ll lr lb cr cb :
  get_child n s = Some (Mk cv (Mk lv ll lr lb) cr cb) ->
  rotateRight n s = redirect n s (Mk lv ll (Mk cv lr cr 0) 0).
Proof. intros H. unfold rotateRight. now rewrite H. Qed.

Lemma rotateLeftRight_Some (n : Node) (s : Slot) cv lv ll gv gl gr gb lb cr cb :
  get_child n s = Some (Mk cv (Mk lv ll (Mk gv gl gr gb) lb) cr cb) ->
  rotateLeftRight n s = redirect n s (Mk gv (Mk lv ll gl 0) (Mk cv gr cr 0) 0).
Proof.
  intros H. unfold rotateLeftRight. rewrite H.
  destruct n, s; simpl in H; try discriminate; reflexivity.
Qed.

Lemma rotateRightLeft_Some (n : Node) (s : Slot) cv cl rv gv gl gr gb rr rb cb :
  get_child n s = Some (Mk cv cl (Mk rv (Mk gv gl gr gb) rr rb) cb) ->
  rotateRightLeft n s = redirect n s (Mk gv (Mk cv cl gl 0) (Mk rv gr rr 0) 0).
Proof.
  intros H. unfold rotateRightLeft. rewrite H.
  destruct n, s; simpl in H; try discriminate; reflexivity.
Qed.

(** Whenever [rebalance] returns, it has replaced the subtree below the slot
    by one with the same values in the same order. *)
Lemma rebalance_returns (n : Node) (s : Slot) (n' : Node) :
  rebalance n s = Some n' ->
  exists c c', get_child n s = Some c /\ redirect n s c' = Some n' /\
               is_nil c = false /\ is_nil c' = false /\
               inorder c' = inorder c.
Proof.
  intros H. destruct n as [|pv pl pr pb]; [destruct s; discriminate|].
  destruct s; [shapes pl | shapes pr]; unfold_methods H; cbv beta iota in H;
    try discriminate H; break H;
    injection H as <-;
    do 2 eexists; (split; [reflexivity|]); (split; [reflexivity|]);
    repeat split; list_eq.
Qed.

Ltac break_goal :=
  repeat match goal with
         | |- context [if ?b then _ else _] =>
             destruct b eqn:?; cbv beta iota
         end.

(** On a subtree that satisfies [ok], [rebalance] returns, and the subtree it
    leaves below the slot satisfies [ok] again. *)
Lemma rebalance_ok (n : Node) (s : Slot) (c : Node) :
  get_child n s = Some c -> is_nil c = false -> ok c ->
  exists n' c', rebalance n s = Some n' /\ redirect n s c' = Some n' /\
                is_nil c' = false /\ ok c' /\ inorder c' = inorder c.
Proof.
  intros Hc Hnil Hok. destruct n as [|pv pl pr pb]; [destruct s; discriminate|].
  destruct s; simpl in Hc; injection Hc as ->; shapes c; try discriminate Hnil;
    unfold rebalance, rotateRightLeft, rotateLeftRight, rotateLeft, rotateRight,
    and_then, bind, get_child, redirect, get_Left, get_Right, get_bal,
    set_Left, set_Right, set_bal; cbv beta iota; break_goal.
  all: cbn [ok is_nil] in Hok.
  all: repeat match goal with H : (_ =? _) = true |- _ => apply Z.eqb_eq in H end.
  all: try solve [exfalso; intuition (try lia; try discriminate)].
  all: do 2 eexists; (split; [reflexivity|]); (split; [reflexivity|]);
    (split; [reflexivity|]); (split; [|list_eq]).
  all: cbn [ok is_nil]; intuition (try lia; try discriminate).
Qed.

(** * Insert *)

Lemma ok_Mk v l r b :
  (0 < b -> is_nil r = false) -> (b < 0 -> is_nil l = false) ->
  ok l -> ok r -> ok (Mk v l r b).
Proof. cbn [ok]. tauto. Qed.

Lemma ok_new_Node v : ok (new_Node v).
Proof. unfold new_Node. cbn [ok is_nil]. lia. Qed.

Section InsertFacts.

Variable less : string -> string -> bool.
Variable value : string.

Lemma descend_length (n : Node) :
  List.length (descend less value n) = S (List.length (inorder n)).
Proof.
  induction n as [|v l IHl r IHr b]; cbn [descend inorder]; [reflexivity|].
  destruct (less value v); rewrite !length_app; cbn [List.length];
    rewrite ?IHl, ?IHr, ?length_app; cbn [List.length]; lia.
Qed.

(** Whenever [Insert] returns: the receiver keeps its value, the subtree on
    the side the predicate chose holds the new value at the end of the
    descent, the other subtree is untouched, and the result is whether the
    receiver's [bal] is non-zero. *)
Lemma Insert_returns (n n' : Node) (g : bool) :
  Insert less value n = Some (n', g) ->
  exists v l r b l' r' b',
    n = Mk v l r b /\ n' = Mk v l' r' b' /\ g = negb (b' =? 0) /\
    if less value v
    then inorder l' = descend less value l /\ r' = r
    else l' = l /\ inorder r' = descend less value r.
Proof.
  revert n' g. induction n as [|v l IHl r IHr b]; intros n' g H;
    [discriminate|].
  cbn [Insert] in H. exists v, l, r, b.
  destruct (less value v) eqn:Hlt.
  - destruct l as [|lv ll lr lb].
    + cbn in H. injection H as <- <-. do 3 eexists. repeat split.
    + remember (Insert less value (Mk lv ll lr lb)) as o eqn:Hl in H.
      symmetry in Hl. destruct o as [[l1 g1]|]; [|discriminate].
      destruct (IHl _ _ Hl) as (v1 & a1 & c1 & b1 & a1' & c1' & b1' & E & -> & _ & Hd).
      assert (Hin : inorder (Mk v1 a1' c1' b1') = descend less value (Mk lv ll lr lb)).
      { injection E as -> -> -> ->. cbn [inorder descend].
        destruct (less value v1); destruct Hd as [Hd1 Hd2]; now rewrite Hd1, Hd2. }
      cbn [bind get_bal] in H.
      destruct g1; [destruct (out_of_range b1') eqn:Hr|].
      * destruct (rebalance (Mk v (Mk v1 a1' c1' b1') r b) AtLeft) as [n1|] eqn:Hb;
          [|discriminate].
        destruct (rebalance_returns _ _ _ Hb) as (c & c' & Hc & Hc' & _ & _ & Hi).
        cbn in Hc, Hc'. injection Hc as <-. injection Hc' as <-.
        cbn in H. injection H as <- <-. do 3 eexists. repeat split.
        now rewrite Hi.
      * cbn in H. injection H as <- <-. do 3 eexists. repeat split. exact Hin.
      * cbn in H. injection H as <- <-. do 3 eexists. repeat split. exact Hin.
  - destruct r as [|rv rl rr rb].
    + cbn in H. injection H as <- <-. do 3 eexists. repeat split.
    + remember (Insert less value (Mk rv rl rr rb)) as o eqn:Hr1 in H.
      symmetry in Hr1. destruct o as [[r1 g1]|]; [|discriminate].
      destruct (IHr _ _ Hr1) as (v1 & a1 & c1 & b1 & a1' & c1' & b1' & E & -> & _ & Hd).
      assert (Hin : inorder (Mk v1 a1' c1' b1') = descend less value (Mk rv rl rr rb)).
      { injection E as -> -> -> ->. cbn [inorder descend].
        destruct (less value v1); destruct Hd as [Hd1 Hd2]; now rewrite Hd1, Hd2. }
      cbn [bind get_bal] in H.
      destruct g1; [destruct (out_of_range b1') eqn:Hr|].
      * destruct (rebalance (Mk v l (Mk v1 a1' c1' b1') b) AtRight) as [n1|] eqn:Hb;
          [|discriminate].
        destruct (rebalance_returns _ _ _ Hb) as (c & c' & Hc & Hc' & _ & _ & Hi).
        cbn in Hc, Hc'. injection Hc as <-. injection Hc' as <-.
        cbn in H. injection H as <- <-. do 3 eexists. repeat split.
        now rewrite Hi.
      * cbn in H. injection H as <- <-. do 3 eexists. repeat split. exact Hin.
      * cbn in H. injection H as <- <-. do 3 eexists. repeat split. exact Hin.
Qed.

Lemma Insert_inorder (n n' : Node) (g : bool) :
  Insert less value n = Some (n', g) ->
  is_nil n' = false /\ inorder n' = descend less value n /\
  size n' = size n + 1.
Proof.
  intros H.
  destruct (Insert_returns _ _ _ H) as (v & l & r & b & l' & r' & b' & -> & -> & _ & Hd).
  assert (Hin : inorder (Mk v l' r' b') = descend less value (Mk v l r b)).
  { cbn [inorder descend].
    destruct (less value v); destruct Hd as [Hd1 Hd2]; now rewrite Hd1, Hd2. }
  repeat split; [exact Hin|].
  rewrite !size_inorder, Hin, descend_length. lia.
Qed.

End InsertFacts.

(** * The range half of the balance invariant *)

Lemma in_range_below_root (v : string) (l r : Node) (b : Z) :
  in_range_below (Mk v l r b) -> -1 <= b <= 1 -> bal_in_range (Mk v l r b).
Proof. cbn [in_range_below bal_in_range]. tauto. Qed.

Lemma rebalance_range (n : Node) (s : Slot) (c n' : Node) :
  get_child n s = Some c -> in_range_below c -> rebalance n s = Some n' ->
  exists c', redirect n s c' = Some n' /\ bal_in_range c'.
Proof.
  intros Hc Hr H. destruct n as [|pv pl pr pb]; [destruct s; discriminate|].
  destruct s; cbn in Hc; injection Hc as ->; shapes c;
    unfold_methods H; cbv beta iota in H; try discriminate H; break H;
    injection H as <-; eexists; (split; [reflexivity|]);
    repeat match goal with
           | E : (_ =? _) = true |- _ => apply Z.eqb_eq in E
           | E : (_ =? _) = false |- _ => apply Z.eqb_neq in E
           end;
    cbn [in_range_below bal_in_range get_bal] in Hr |- *;
    repeat match goal with
           | E : exists _, _ |- _ => destruct E
           | E : _ /\ _ |- _ => destruct E
           | E : _ \/ _ |- _ => destruct E
           | E : Some _ = Some _ |- _ => injection E as E
           | E : None = Some _ |- _ => discriminate E
           end;
    subst; repeat split; try assumption; try lia;
    exfalso; match goal with
             | E : _ = Some _ |- _ => cbn in E; discriminate E
             end.
Qed.

Lemma bal_in_range_new_Node (v : string) : bal_in_range (new_Node v).
Proof. cbn. repeat split; lia. Qed.

Lemma in_range_below_Mk (v : string) (l r : Node) (b : Z) :
  bal_in_range l -> bal_in_range r -> -1 <= b <= 1 ->
  in_range_below (Mk v l r b).
Proof. cbn [in_range_below]. tauto. Qed.

Lemma Insert_range (less : string -> string -> bool) (value : string)
  (n n' : Node) (g : bool) :
  bal_in_range n -> Insert less value n = Some (n', g) -> in_range_below n'.
Proof.
  revert n' g. induction n as [|v l IHl r IHr b]; intros n' g Hr H;
    [discriminate|].
  destruct Hr as (Hb & Hrl & Hrr). cbn [Insert] in H.
  destruct (less value v).
  - destruct (is_nil l) eqn:El.
    + destruct l; [|discriminate]. cbn in H. injection H as <- _.
      apply in_range_below_Mk; [apply bal_in_range_new_Node|assumption|].
      destruct (is_nil r); lia.
    + destruct l as [|lv ll lr lb]; [discriminate|].
      remember (Insert less value (Mk lv ll lr lb)) as o eqn:Hl in H.
      symmetry in Hl. destruct o as [[l1 g1]|]; [|discriminate].
      pose proof (IHl _ _ Hrl Hl) as Hl1.
      destruct (Insert_returns _ _ _ _ _ Hl)
        as (v0 & a0 & c0 & b0 & a1 & c1 & b1 & _ & -> & -> & _).
      cbn [bind get_bal] in H.
      destruct (b1 =? 0) eqn:E0; cbn [negb] in H.
      * cbn in H. injection H as <- _. apply Z.eqb_eq in E0.
        apply in_range_below_Mk; try assumption.
        apply in_range_below_root; [assumption|lia].
      * apply Z.eqb_neq in E0. destruct (out_of_range b1) eqn:Eo.
        -- destruct (rebalance (Mk v (Mk v0 a1 c1 b1) r b) AtLeft) as [n1|] eqn:Hb1;
             [|discriminate].
           destruct (rebalance_range (Mk v (Mk v0 a1 c1 b1) r b) AtLeft _ _ eq_refl Hl1 Hb1)
             as (c' & Hc' & Hrc').
           cbn in Hc'. injection Hc' as <-. cbn in H. injection H as <- _.
           now apply in_range_below_Mk.
        -- apply out_of_range_false in Eo. rewrite (decr_small b Hb) in H.
           cbn in H. injection H as <- _. cbn [in_range_below].
           split; [apply in_range_below_root; assumption|].
           split; [assumption|].
           destruct (Z.eq_dec (b - 1) (-2)) as [E2|E2]; [|left; lia].
           right. left. split; [assumption|]. exists b1. split; [reflexivity|lia].
  - destruct (is_nil r) eqn:Er.
    + destruct r; [|discriminate]. cbn in H. injection H as <- _.
      apply in_range_below_Mk; [assumption|apply bal_in_range_new_Node|].
      destruct (is_nil l); lia.
    + destruct r as [|rv rl rr rb]; [discriminate|].
      remember (Insert less value (Mk rv rl rr rb)) as o eqn:Hr1 in H.
      symmetry in Hr1. destruct o as [[r1 g1]|]; [|discriminate].
      pose proof (IHr _ _ Hrr Hr1) as Hr1'.
      destruct (Insert_returns _ _ _ _ _ Hr1)
        as (v0 & a0 & c0 & b0 & a1 & c1 & b1 & _ & -> & -> & _).
      cbn [bind get_bal] in H.
      destruct (b1 =? 0) eqn:E0; cbn [negb] in H.
      * cbn in H. injection H as <- _. apply Z.eqb_eq in E0.
        apply in_range_below_Mk; try assumption.
        apply in_range_below_root; [assumption|lia].
      * apply Z.eqb_neq in E0. destruct (out_of_range b1) eqn:Eo.
        -- destruct (rebalance (Mk v l (Mk v0 a1 c1 b1) b) AtRight) as [n1|] eqn:Hb1;
             [|discriminate].
           destruct (rebalance_range (Mk v l (Mk v0 a1 c1 b1) b) AtRight _ _ eq_refl Hr1' Hb1)
             as (c' & Hc' & Hrc').
           cbn in Hc'. injection Hc' as <-. cbn in H. injection H as <- _.
           now apply in_range_below_Mk.
        -- apply out_of_range_false in Eo. rewrite (incr_small b Hb) in H.
           cbn in H. injection H as <- _. cbn [in_range_below].
           split; [assumption|].
           split; [apply in_range_below_root; assumption|].
           destruct (Z.eq_dec (b + 1) 2) as [E2|E2]; [|left; lia].
           right. right. split; [assumption|]. exists b1. split; [reflexivity|lia].
Qed.

(** * Insert returns *)

Ltac ok_node :=
  apply ok_Mk; try assumption; try apply ok_new_Node;
  try (intros;
       first [ reflexivity | assumption | discriminate
             | match goal with
               | H : _ -> is_nil ?x = false |- is_nil ?x = false => apply H
               end; lia
             | lia ]).

(** On a tree that satisfies [ok] and whose [bal]s are in range, [Insert]
    returns, and its result satisfies [ok]. *)
Lemma Insert_ok (less : string -> string -> bool) (value : string) (n : Node) :
  is_nil n = false -> ok n -> bal_in_range n ->
  exists n' g, Insert less value n = Some (n', g) /\ ok n'.
Proof.
  induction n as [|v l IHl r IHr b]; intros Hnil Hok Hrange; [discriminate|].
  cbn [ok] in Hok. cbn [bal_in_range] in Hrange.
  destruct Hok as (Hpos & Hneg & Hokl & Hokr).
  destruct Hrange as (Hb & Hrl & Hrr).
  cbn [Insert]. destruct (less value v) eqn:Hlt.
  - destruct (is_nil l) eqn:El.
    + destruct l; [|discriminate]. do 2 eexists. split; [reflexivity|].
      destruct r; cbn [is_nil]; ok_node.
    + destruct (IHl eq_refl Hokl Hrl) as (l1 & g1 & Hl & Hokl1).
      destruct (Insert_inorder _ _ _ _ _ Hl) as (Hn1 & _ & _).
      destruct l as [|lv ll lr lb]; [discriminate|].
      rewrite Hl. destruct (is_nil_false _ Hn1) as (v1 & a1 & c1 & b1 & E).
      rewrite E. cbn [bind get_bal]. rewrite <- E.
      destruct g1; [destruct (out_of_range b1)|].
      * destruct (rebalance_ok (Mk v l1 r b) AtLeft _ eq_refl Hn1 Hokl1)
          as (n1 & c' & Hb1 & Hc' & Hnc' & Hokc' & Hi).
        rewrite Hb1. cbn in Hc'. injection Hc' as <-. cbn [bind get_bal].
        do 2 eexists. split; [reflexivity|]. ok_node.
      * rewrite (decr_small b Hb). cbn [bind get_bal].
        do 2 eexists. split; [reflexivity|]. ok_node.
      * cbn [bind get_bal]. do 2 eexists. split; [reflexivity|]. ok_node.
  - destruct (is_nil r) eqn:Er.
    + destruct r; [|discriminate]. do 2 eexists. split; [reflexivity|].
      destruct l; cbn [is_nil]; ok_node.
    + destruct (IHr eq_refl Hokr Hrr) as (r1 & g1 & Hr & Hokr1).
      destruct (Insert_inorder _ _ _ _ _ Hr) as (Hn1 & _ & _).
      destruct r as [|rv rl rr rb]; [discriminate|].
      rewrite Hr. destruct (is_nil_false _ Hn1) as (v1 & a1 & c1 & b1 & E).
      rewrite E. cbn [bind get_bal]. rewrite <- E.
      destruct g1; [destruct (out_of_range b1)|].
      * destruct (rebalance_ok (Mk v l r1 b) AtRight _ eq_refl Hn1 Hokr1)
          as (n1 & c' & Hb1 & Hc' & Hnc' & Hokc' & Hi).
        rewrite Hb1. cbn in Hc'. injection Hc' as <-. cbn [bind get_bal].
        do 2 eexists. split; [reflexivity|]. ok_node.
      * rewrite (incr_small b Hb). cbn [bind get_bal].
        do 2 eexists. split; [reflexivity|]. ok_node.
      * cbn [bind get_bal]. do 2 eexists. split; [reflexivity|]. ok_node.
Qed.

(** * The descent of Insert on an ascending tree is list insertion *)

Section Ordering.

Variable less : string -> string -> bool.
Hypothesis less_consistent : consistent less.

Lemma less_irrefl (a : string) : less a a = false.
Proof. apply less_consistent. Qed.

Lemma less_trans (a b c : string) :
  less a b = true -> less b c = true -> less a c = true.
Proof. apply less_consistent. Qed.

Lemma less_negtrans (a b c : string) :
  less a b = false -> less b c = false -> less a c = false.
Proof. apply less_consistent. Qed.

Lemma less_asym (a b : string) : less a b = true -> less b a = false.
Proof.
  intros Hab. destruct (less b a) eqn:Hba; [|reflexivity].
  rewrite <- (less_irrefl a). symmetry. now apply less_trans with b.
Qed.

Lemma ascending_app_inv (l1 l2 : list string) (v : string) :
  ascending less (l1 ++ v :: l2) ->
  ascending less l1 /\ ascending less l2 /\
  Forall (fun a => less v a = false) l1.
Proof.
  unfold ascending. induction l1 as [|x l1 IH]; cbn [app]; intros H.
  - apply StronglySorted_inv in H. repeat split; [constructor|tauto|constructor].
  - apply StronglySorted_inv in H. destruct H as [Hs Hx].
    destruct (IH Hs) as (H1 & H2 & H3).
    rewrite Forall_app in Hx. destruct Hx as [Hx1 Hx2].
    repeat split; [now constructor|assumption|].
    constructor; [|assumption]. now inversion Hx2.
Qed.

Lemma linsert_before (value v : string) (l1 l2 : list string) :
  less value v = true ->
  linsert less value (l1 ++ v :: l2) = linsert less value l1 ++ v :: l2.
Proof.
  intros Hlt. induction l1 as [|x l1 IH]; cbn [app linsert].
  - now rewrite Hlt.
  - destruct (less value x); [reflexivity|]. cbn [app]. now rewrite IH.
Qed.

Lemma linsert_after (value v : string) (l1 l2 : list string) :
  less value v = false -> Forall (fun a => less v a = false) l1 ->
  linsert less value (l1 ++ v :: l2) = l1 ++ v :: linsert less value l2.
Proof.
  intros Hlt Hall. induction Hall as [|x l1 Hx Hall IH]; cbn [app linsert].
  - now rewrite Hlt.
  - rewrite (less_negtrans _ _ _ Hlt Hx). now rewrite IH.
Qed.

Lemma descend_linsert (value : string) (n : Node) :
  ascending less (inorder n) ->
  descend less value n = linsert less value (inorder n).
Proof.
  induction n as [|v l IHl r IHr b]; cbn [descend inorder]; intros Hs;
    [reflexivity|].
  destruct (ascending_app_inv _ _ _ Hs) as (Hl & Hr & Hall).
  destruct (less value v) eqn:Hlt.
  - rewrite linsert_before by assumption. now rewrite IHl.
  - rewrite linsert_after by assumption. now rewrite IHr.
Qed.

Lemma linsert_Forall (P : string -> Prop) (value : string) (l : list string) :
  P value -> Forall P l -> Forall P (linsert less value l).
Proof.
  intros Hv Hl. induction Hl as [|x l Hx Hl IH]; cbn [linsert].
  - now constructor.
  - destruct (less value x); now repeat constructor.
Qed.

Lemma linsert_ascending (value : string) (l : list string) :
  ascending less l -> ascending less (linsert less value l).
Proof.
  unfold ascending. induction l as [|x l IH]; cbn [linsert]; intros Hs.
  - repeat constructor.
  - apply StronglySorted_inv in Hs. destruct Hs as [Hs Hx].
    destruct (less value x) eqn:Hlt.
    + constructor; [now constructor|].
      constructor; [now apply less_asym|].
      rewrite Forall_forall in Hx |- *. intros y Hy.
      destruct (less y value) eqn:Hyv; [|reflexivity].
      rewrite <- (Hx y Hy). symmetry. now apply less_trans with value.
    + constructor; [now apply IH|].
      now apply linsert_Forall.
Qed.

Lemma linsert_Permutation (value : string) (l : list string) :
  Permutation (linsert less value l) (value :: l).
Proof.
  induction l as [|x l IH]; cbn [linsert]; [reflexivity|].
  destruct (less value x); [reflexivity|].
  rewrite IH. apply perm_swap.
Qed.

Lemma fold_linsert_ascending (vs acc : list string) :
  ascending less acc ->
  ascending less (fold_left (fun acc v => linsert less v acc) vs acc).
Proof.
  revert acc. induction vs as [|v vs IH]; intros acc Hs; cbn [fold_left];
    [assumption|].
  apply IH. now apply linsert_ascending.
Qed.

Lemma fold_linsert_Permutation (vs acc : list string) :
  Permutation (fold_left (fun acc v => linsert less v acc) vs acc) (acc ++ vs).
Proof.
  revert acc. induction vs as [|v vs IH]; intros acc; cbn [fold_left].
  - now rewrite app_nil_r.
  - rewrite IH, linsert_Permutation. apply Permutation_middle.
Qed.

Lemma isort_ascending (vs : list string) : ascending less (isort less vs).
Proof. apply fold_linsert_ascending. constructor. Qed.

Lemma isort_Permutation (vs : list string) : Permutation (isort less vs) vs.
Proof. apply (fold_linsert_Permutation vs []). Qed.

End Ordering.

(** * Tree.Insert and the insertion loop *)

Lemma Tree_Insert_range (less : string -> string -> bool) (value : string)
  (t t' : Tree) :
  bal_in_range (Root t) -> Tree_Insert less value t = Some t' ->
  bal_in_range (Root t').
Proof.
  intros Hr H. unfold Tree_Insert in H.
  destruct (Root t) as [|v l r b] eqn:Et.
  - injection H as <-. apply bal_in_range_new_Node.
  - destruct (Insert less value (Mk v l r b)) as [[root g]|] eqn:Hi;
      [|discriminate].
    pose proof (Insert_range _ _ _ _ _ Hr Hi) as Hroot.
    destruct (Insert_returns _ _ _ _ _ Hi)
      as (v0 & a0 & c0 & b0 & a1 & c1 & b1 & _ & -> & _ & _).
    cbn [bind get_bal] in H. destruct (out_of_range b1) eqn:Eo.
    + unfold Tree_rebalance in H. cbn [Root] in H.
      destruct (rebalance (Mk "fakeParent"%string (Mk v0 a1 c1 b1) Nil 0) AtLeft)
        as [fp|] eqn:Hb; [|discriminate].
      destruct (rebalance_range (Mk "fakeParent"%string (Mk v0 a1 c1 b1) Nil 0)
                  AtLeft _ _ eq_refl Hroot Hb) as (c' & Hc' & Hrc').
      cbn in Hc'. injection Hc' as <-. cbn in H. now injection H as <-.
    + injection H as <-. cbn [Root]. apply out_of_range_false in Eo.
      now apply in_range_below_root.
Qed.

Lemma insert_all_range (less : string -> string -> bool) (vs : list string) :
  forall t t', bal_in_range (Root t) -> insert_all less vs t = Some t' ->
               bal_in_range (Root t').
Proof.
  induction vs as [|v vs IH]; intros t t' Hr H; cbn [insert_all] in H.
  - now injection H as <-.
  - destruct (Tree_Insert less v t) as [t1|] eqn:H1; [|discriminate].
    cbn [bind] in H. apply (IH t1 t'); [|assumption].
    now apply (Tree_Insert_range less v t).
Qed.

(** Whenever [Tree.Insert] returns, the tree holds the new value where the
    descent ends. *)
Lemma Tree_Insert_inorder (less : string -> string -> bool) (value : string)
  (t t' : Tree) :
  Tree_Insert less value t = Some t' ->
  inorder (Root t') = descend less value (Root t).
Proof.
  intros H. unfold Tree_Insert in H.
  destruct (Root t) as [|v l r b] eqn:Et.
  - now injection H as <-.
  - destruct (Insert less value (Mk v l r b)) as [[root g]|] eqn:Hi;
      [|discriminate].
    destruct (Insert_inorder _ _ _ _ _ Hi) as (Hnil & Hin & _).
    destruct (is_nil_false _ Hnil) as (v1 & a1 & c1 & b1 & ->).
    cbn [bind get_bal] in H. destruct (out_of_range b1).
    + unfold Tree_rebalance in H. cbn [Root] in H.
      destruct (rebalance (Mk "fakeParent"%string (Mk v1 a1 c1 b1) Nil 0) AtLeft)
        as [fp|] eqn:Hb; [|discriminate].
      destruct (rebalance_returns _ _ _ Hb) as (c & c' & Hc & Hc' & _ & _ & Hic).
      cbn in Hc, Hc'. injection Hc as <-. injection Hc' as <-.
      cbn in H. injection H as <-. cbn [Root]. now rewrite Hic.
    + now injection H as <-.
Qed.

(** On a tree that satisfies [ok] and whose [bal]s are in range,
    [Tree.Insert] returns; the tree it leaves satisfies [ok] and holds the
    new value where the descent ends. *)
Lemma Tree_Insert_ok (less : string -> string -> bool) (value : string) (t : Tree) :
  ok (Root t) -> bal_in_range (Root t) ->
  exists t', Tree_Insert less value t = Some t' /\ ok (Root t') /\
             is_nil (Root t') = false /\
             inorder (Root t') = descend less value (Root t).
Proof.
  intros Hok Hrange. unfold Tree_Insert.
  destruct (Root t) as [|v l r b] eqn:Et.
  - eexists. split; [reflexivity|]. cbn [Root].
    split; [apply ok_new_Node|split; reflexivity].
  - destruct (Insert_ok less value (Mk v l r b) eq_refl Hok Hrange)
      as (root & g & Hi & Hok').
    destruct (Insert_inorder _ _ _ _ _ Hi) as (Hnil & Hin & _).
    rewrite Hi. destruct (is_nil_false _ Hnil) as (v1 & a1 & c1 & b1 & E).
    rewrite E. cbn [bind get_bal]. rewrite <- E.
    destruct (out_of_range b1).
    + unfold Tree_rebalance. cbn [Root].
      destruct (rebalance_ok (Mk "fakeParent"%string root Nil 0) AtLeft _
                  eq_refl Hnil Hok') as (n1 & c' & Hb & Hc' & Hnc' & Hokc' & Hic).
      rewrite Hb. cbn in Hc'. injection Hc' as <-. cbn [bind get_Left].
      eexists. split; [reflexivity|]. cbn [Root]. repeat split; try assumption.
      now rewrite Hic.
    + eexists. split; [reflexivity|]. cbn [Root]. now repeat split.
Qed.

(** The loop returns on every input, and both invariants hold of the tree it
    leaves. *)
Lemma insert_all_ok (less : string -> string -> bool) (vs : list string) :
  forall t, ok (Root t) -> bal_in_range (Root t) ->
            exists t', insert_all less vs t = Some t' /\
                       ok (Root t') /\ bal_in_range (Root t').
Proof.
  induction vs as [|v vs IH]; intros t Hok Hrange.
  - exists t. now repeat split.
  - cbn [insert_all].
    destruct (Tree_Insert_ok less v t Hok Hrange) as (t1 & H1 & Hok1 & _).
    rewrite H1. cbn [bind]. apply IH; [assumption|].
    now apply (Tree_Insert_range less v t).
Qed.

(** Under a consistent predicate the tree the loop leaves holds the values in
    the order of a stable insertion sort. *)
Lemma insert_all_from (less : string -> string -> bool) (vs : list string) :
  consistent less ->
  forall t t',
    ascending less (inorder (Root t)) -> insert_all less vs t = Some t' ->
    inorder (Root t') =
      fold_left (fun acc v => linsert less v acc) vs (inorder (Root t)).
Proof.
  intros Hc. induction vs as [|v vs IH]; intros t t' Hs H;
    cbn [insert_all fold_left] in *.
  - now injection H as <-.
  - destruct (Tree_Insert less v t) as [t1|] eqn:H1; [|discriminate].
    cbn [bind] in H.
    assert (Hin1 : inorder (Root t1) = linsert less v (inorder (Root t))).
    { rewrite <- (descend_linsert less Hc) by assumption.
      now apply Tree_Insert_inorder. }
    rewrite <- Hin1. apply IH; [|assumption].
    rewrite Hin1. now apply linsert_ascending.
Qed.

Lemma insert_all_isort (less : string -> string -> bool) (vs : list string) :
  consistent less ->
  exists t, insert_all less vs new_Tree = Some t /\ ok (Root t) /\
            bal_in_range (Root t) /\ traversal t = isort less vs.
Proof.
  intros Hc.
  destruct (insert_all_ok less vs new_Tree I I) as (t & H & Hok & Hrange).
  exists t. repeat split; try assumption.
  rewrite traversal_inorder.
  apply (insert_all_from less vs Hc new_Tree t); [constructor|assumption].
Qed.

(** For every predicate and every input, the insertions all return and every
    node of the tree they build has [bal] in {-1, 0, 1}: the pairs outside
    the table of [rebalance] do not arise from insertions. *)
Lemma insertions_keep_bal_in_range (less : string -> string -> bool)
  (vs : list string) :
  exists t, insert_all less vs new_Tree = Some t /\ bal_in_range (Root t).
Proof.
  destruct (insert_all_ok less vs new_Tree I I) as (t & H & _ & Hrange).
  now exists t.
Qed.

(** * Permutations of the values *)

Lemma descend_Permutation (less : string -> string -> bool) (value : string)
  (n : Node) :
  Permutation (descend less value n) (value :: inorder n).
Proof.
  induction n as [|v l IHl r IHr b]; cbn [descend inorder]; [reflexivity|].
  destruct (less value v).
  - rewrite IHl. reflexivity.
  - rewrite IHr.
    transitivity (inorder l ++ value :: v :: inorder r).
    + apply Permutation_app_head, perm_swap.
    + symmetry. apply Permutation_middle.
Qed.

Lemma ascending_Permutation_eq (less : string -> string -> bool)
  (l1 l2 : list string) :
  no_ties less l1 -> ascending less l1 -> ascending less l2 ->
  Permutation l1 l2 -> l1 = l2.
Proof.
  revert l2. induction l1 as [|x l1 IH]; intros l2 Hnt H1 H2 Hp.
  - apply Permutation_nil in Hp. now subst.
  - destruct l2 as [|y l2].
    { apply Permutation_sym, Permutation_nil in Hp. discriminate. }
    apply StronglySorted_inv in H1. destruct H1 as [H1 Hx].
    apply StronglySorted_inv in H2. destruct H2 as [H2 Hy].
    destruct (string_dec x y) as [->|Hne].
    + f_equal. apply IH; try assumption.
      * intros a b Ha Hb. apply Hnt; now right.
      * now apply Permutation_cons_inv in Hp.
    + exfalso.
      assert (Hx2 : In x l2).
      { destruct (Permutation_in x Hp (or_introl eq_refl)) as [E|E];
          [now symmetry in E|assumption]. }
      assert (Hy1 : In y l1).
      { destruct (Permutation_in y (Permutation_sym Hp) (or_introl eq_refl))
          as [E|E]; [contradiction|assumption]. }
      rewrite Forall_forall in Hx, Hy.
      specialize (Hx y Hy1). specialize (Hy x Hx2). cbv beta in Hx, Hy.
      destruct (Hnt x y) as [E|E]; [now left|now right|assumption| |];
        congruence.
Qed.

Lemma no_ties_Permutation (less : string -> string -> bool)
  (l1 l2 : list string) :
  Permutation l1 l2 -> no_ties less l1 -> no_ties less l2.
Proof.
  intros Hp Hnt a b Ha Hb. apply Hnt.
  - now apply (Permutation_in _ (Permutation_sym Hp)).
  - now apply (Permutation_in _ (Permutation_sym Hp)).
Qed.

(** * The ordering predicates are consistent *)

Lemma lex_less_lt (a b : string) :
  lex_less a b = true <-> String_as_OT.lt a b.
Proof.
  unfold lex_less, String.ltb. rewrite <- String_as_OT.cmp_lt.
  unfold String_as_OT.cmp. destruct (String.compare a b); split;
    intros H; try reflexivity; discriminate H.
Qed.

Lemma lex_less_cases (a b : string) :
  lex_less a b = true \/ a = b \/ lex_less b a = true.
Proof.
  unfold lex_less, String.ltb. rewrite (String.compare_antisym b a).
  destruct (String.compare a b) eqn:E; cbn; auto.
  right. left. now apply String.compare_eq_iff.
Qed.

Lemma lex_less_irrefl (a : string) : lex_less a a = false.
Proof.
  destruct (lex_less a a) eqn:E; [|reflexivity].
  apply lex_less_lt, String_as_OT.lt_not_eq in E. exfalso. now apply E.
Qed.

Lemma lex_less_trans (a b c : string) :
  lex_less a b = true -> lex_less b c = true -> lex_less a c = true.
Proof.
  rewrite !lex_less_lt. apply String_as_OT.lt_trans.
Qed.

Lemma lex_less_consistent : consistent lex_less.
Proof.
  split; [exact lex_less_irrefl|]. split; [exact lex_less_trans|].
  intros a b c Hab Hbc. destruct (lex_less a c) eqn:Hac; [|reflexivity].
  destruct (lex_less_cases a b) as [H|[->|H]].
  - congruence.
  - congruence.
  - rewrite <- Hbc. symmetry. now apply lex_less_trans with a.
Qed.

Lemma lex_less_total : total lex_less.
Proof.
  intros a b Hne. destruct (lex_less_cases a b) as [H|[H|H]]; auto.
Qed.

Lemma shorter_consistent : consistent shorter.
Proof.
  unfold shorter. repeat split.
  - intros a. apply Nat.ltb_irrefl.
  - intros a b c. rewrite !Nat.ltb_lt. lia.
  - intros a b c. rewrite !Nat.ltb_ge. lia.
Qed.

(** * The properties of the specification *)

Section Scenarios.

Local Open Scope string_scope.

(** C6: with lexicographic [<], inserting "a", "b", "c" into an empty tree
    gives root "b" with left child "a" and right child "c", every balance
    factor 0, and the in-order traversal "a", "b", "c"; inserting "c", "b",
    "a" gives the same tree. *)
Theorem insert_abc_and_cba :
  let abc := {| Root := Mk "b" (Mk "a" Nil Nil 0) (Mk "c" Nil Nil 0) 0 |} in
  insert_all lex_less ["a"; "b"; "c"] new_Tree = Some abc /\
  traversal abc = ["a"; "b"; "c"] /\
  insert_all lex_less ["c"; "b"; "a"] new_Tree = Some abc.
Proof. cbv zeta. repeat split; vm_compute; reflexivity. Qed.

(** C1: of the two halves of the balance invariant, the range half holds
    after every insertion and the other one does not: "every [bal] is the
    measured height(right) - height(left)" does not survive every insertion.
    Two runs with lexicographic [<]: in the first the sixth insertion ends in
    a double rotation, which leaves [bal = 0] at "e" although its right
    subtree is one higher than its (empty) left one; in the second the
    eighth insertion goes below "d" without making that subtree higher, "d"
    reports growth all the same, and the root is rotated although it was
    balanced. *)
Theorem insertions_break_exact_balance :
  (forall less vs,
     exists t, insert_all less vs new_Tree = Some t /\ bal_in_range (Root t)) /\
  (exists t5 t6,
     insert_all lex_less ["f"; "e"; "d"; "b"; "a"] new_Tree = Some t5 /\
     avlb (Root t5) = true /\
     Tree_Insert lex_less "c" t5 = Some t6 /\
     t6 = {| Root := Mk "d" (Mk "b" (Mk "a" Nil Nil 0) (Mk "c" Nil Nil 0) 0)
                            (Mk "e" Nil (Mk "f" Nil Nil 0) 0) 0 |} /\
     bal_exactb (Root t6) = false /\ ~ avl (Root t6)) /\
  (exists t7 t8,
     insert_all lex_less ["f"; "d"; "g"; "b"; "e"; "h"; "a"] new_Tree = Some t7 /\
     avlb (Root t7) = true /\
     Tree_Insert lex_less "c" t7 = Some t8 /\
     t8 = {| Root := Mk "d" (Mk "b" (Mk "a" Nil Nil 0) (Mk "c" Nil Nil 0) 0)
                            (Mk "f" (Mk "e" Nil Nil 0)
                                    (Mk "g" Nil (Mk "h" Nil Nil 0) 1) 0) 0 |} /\
     bal_exactb (Root t8) = false /\ ~ avl (Root t8)).
Proof.
  split; [exact insertions_keep_bal_in_range|].
  split; do 2 eexists; repeat (split; [vm_compute; reflexivity|]);
    rewrite <- avlb_spec; vm_compute; discriminate.
Qed.

(** C2: [Insert] returns whether the receiver's resulting [bal] is non-zero,
    and that is not whether the receiver's subtree has become higher.  The
    receiver "d" below satisfies the AVL invariants and has [bal = -1];
    inserting "c" fills the free right slot of "b", the height stays 3, the
    result satisfies the AVL invariants again, and [Insert] returns true. *)
Theorem Insert_reports_growth_without_growth :
  (forall less value n n' g,
     Insert less value n = Some (n', g) ->
     exists b', get_bal n' = Some b' /\ g = negb (b' =? 0)%Z) /\
  (let n := Mk "d" (Mk "b" (Mk "a" Nil Nil 0) Nil (-1)) (Mk "e" Nil Nil 0) (-1) in
   let n' := Mk "d" (Mk "b" (Mk "a" Nil Nil 0) (Mk "c" Nil Nil 0) 0)
                (Mk "e" Nil Nil 0) (-1) in
   insert_all lex_less ["d"; "b"; "e"; "a"] new_Tree = Some {| Root := n |} /\
   avl n /\
   Insert lex_less "c" n = Some (n', true) /\
   height n = 3 /\ height n' = 3 /\ avl n').
Proof.
  split.
  - intros less value n n' g H.
    destruct (Insert_returns _ _ _ _ _ H)
      as (v & l & r & b & l' & r' & b' & _ & -> & -> & _).
    exists b'. now split.
  - cbv zeta. repeat split; try (vm_compute; reflexivity);
      cbn; repeat split; lia.
Qed.

End Scenarios.

(** C7: in the base case of [Insert] (the slot on the side the predicate
    chooses is empty) a new leaf is put into that slot, and the receiver's
    [bal] becomes -1 (left) or +1 (right) when the other child is absent
    too, and 0 when the other child is present. *)
Theorem Insert_base_case (less : string -> string -> bool)
  (value v : string) (other : Node) (b : Z) :
  (less value v = true ->
   Insert less value (Mk v Nil other b) =
     Some (Mk v (new_Node value) other (if is_nil other then -1 else 0),
           is_nil other)) /\
  (less value v = false ->
   Insert less value (Mk v other Nil b) =
     Some (Mk v other (new_Node value) (if is_nil other then 1 else 0),
           is_nil other)).
Proof.
  split; intros H; cbn [Insert]; rewrite H; destruct other; reflexivity.
Qed.

Lemma Insert_base_case_witness :
  Insert lex_less "a" (Mk "b" Nil Nil 0) =
    Some (Mk "b" (new_Node "a") Nil (-1), true) /\
  Insert lex_less "c" (Mk "b" (new_Node "a") Nil (-1)) =
    Some (Mk "b" (new_Node "a") (new_Node "c") 0, false).
Proof.
  split.
  - apply (proj1 (Insert_base_case lex_less "a" "b" Nil 0)). reflexivity.
  - apply (proj2 (Insert_base_case lex_less "c" "b" (new_Node "a") (-1))).
    reflexivity.
Defined.

(** C4 as stated fails: a [(child.bal, overweight-side bal)] pair outside
    the four rows is not fatal.  Here the child has [bal = -2] and its left
    child [bal = 0] (both are the true height differences); [rebalance]
    returns and the parent is what it was. *)
Lemma rebalance_unlisted_pair_returns :
  let c := Mk "d" (Mk "b" (new_Node "a") (new_Node "c") 0) Nil (-2) in
  let n := Mk "e" c Nil (-1) in
  get_child n AtLeft = Some c /\ bal_exact c /\ table_row c = None /\
  rebalance n AtLeft = Some n.
Proof. cbv zeta. repeat split; vm_compute; reflexivity. Qed.

(** C4, amended: when the pair is outside the four rows and the nodes that
    [rebalance] reads are there, [rebalance] returns normally and leaves the
    tree as it was. *)
Theorem rebalance_unlisted_pair_unchanged (n : Node) (s : Slot) (c : Node) :
  get_child n s = Some c -> overweight_side_present c ->
  table_row c = None -> rebalance n s = Some n.
Proof.
  intros Hc Hp Hrow. unfold rebalance. rewrite Hc.
  destruct c as [|cv l r cb]; [contradiction|]. destruct Hp as [Hl Hr].
  cbn [get_bal bind get_Left get_Right and_then]. cbn [table_row] in Hrow.
  destruct (cb =? -2) eqn:E1.
  - apply Z.eqb_eq in E1. specialize (Hl E1). subst cb.
    destruct l as [|lv ll lr lb]; [discriminate|].
    cbn [get_bal bind and_then]. change (-2 =? 2) with false.
    cbn [and_then bind].
    destruct (lb =? -1); [discriminate|]. destruct (lb =? 1); [discriminate|].
    reflexivity.
  - destruct (cb =? 2) eqn:E2; [|reflexivity].
    apply Z.eqb_eq in E2. specialize (Hr E2).
    destruct r as [|rv rl rr rb]; [discriminate|].
    cbn [get_bal bind and_then].
    destruct (rb =? 1); [discriminate|]. destruct (rb =? -1); [discriminate|].
    reflexivity.
Qed.

Lemma rebalance_unlisted_pair_unchanged_witness :
  rebalance (Mk "e" (Mk "d" (Mk "b" (new_Node "a") (new_Node "c") 0) Nil (-2))
               Nil (-1)) AtLeft =
  Some (Mk "e" (Mk "d" (Mk "b" (new_Node "a") (new_Node "c") 0) Nil (-2))
          Nil (-1)).
Proof.
  apply (rebalance_unlisted_pair_unchanged _ AtLeft
           (Mk "d" (Mk "b" (new_Node "a") (new_Node "c") 0) Nil (-2))).
  - reflexivity.
  - cbn. split; [reflexivity | discriminate].
  - reflexivity.
Defined.

(** C5: on a left-right-heavy shape (the node in the slot has [bal = -2],
    its left child [bal = +1], and every [bal] is the true height
    difference) [rebalance] returns the very tree that [rotateLeft] on the
    left child followed by [rotateRight] on the node returns, and the new
    subtree root and both of its children end with [bal = 0]. *)
Theorem rebalance_left_right_is_two_rotations (n : Node) (s : Slot)
  (cv lv : string) (ll lr cr : Node) (lb cb : Z) :
  let c := Mk cv (Mk lv ll lr lb) cr cb in
  get_child n s = Some c -> cb = -2 -> lb = 1 -> bal_exact c ->
  exists n' g,
    rebalance n s = Some n' /\
    (c1 <- rotateLeft c AtLeft ;; n1 <- redirect n s c1 ;; rotateRight n1 s)
      = Some n' /\
    get_child n' s = Some g /\ get_bal g = Some 0 /\
    (x <- get_Left g ;; get_bal x) = Some 0 /\
    (x <- get_Right g ;; get_bal x) = Some 0.
Proof.
  intros c Hc -> -> Hex. subst c.
  destruct Hex as (_ & (Hlb & _ & _) & _).
  destruct lr as [|gv gl gr gb].
  { cbn [height] in Hlb. pose proof (height_nonneg ll). lia. }
  exists (match s with
          | AtLeft => match n with
                      | Nil => Nil
                      | Mk v _ r b =>
                          Mk v (Mk gv (Mk lv ll gl 0) (Mk cv gr cr 0) 0) r b
                      end
          | AtRight => match n with
                       | Nil => Nil
                       | Mk v l _ b =>
                           Mk v l (Mk gv (Mk lv ll gl 0) (Mk cv gr cr 0) 0) b
                       end
          end), (Mk gv (Mk lv ll gl 0) (Mk cv gr cr 0) 0).
  destruct n as [|pv pl pr pb]; [destruct s; discriminate|].
  destruct s; cbn in Hc; injection Hc as ->; repeat split.
Qed.

Lemma rebalance_left_right_is_two_rotations_witness :
  exists n' g,
    rebalance (Mk "fakeParent"
                 (Mk "e" (Mk "b" (new_Node "a") (Mk "c" Nil (new_Node "d") 1) 1)
                    (new_Node "f") (-2)) Nil 0) AtLeft = Some n' /\
    (c1 <- rotateLeft
             (Mk "e" (Mk "b" (new_Node "a") (Mk "c" Nil (new_Node "d") 1) 1)
                (new_Node "f") (-2)) AtLeft ;;
     n1 <- redirect
             (Mk "fakeParent"
                (Mk "e" (Mk "b" (new_Node "a") (Mk "c" Nil (new_Node "d") 1) 1)
                   (new_Node "f") (-2)) Nil 0) AtLeft c1 ;;
     rotateRight n1 AtLeft) = Some n' /\
    get_child n' AtLeft = Some g /\ get_bal g = Some 0 /\
    (x <- get_Left g ;; get_bal x) = Some 0 /\
    (x <- get_Right g ;; get_bal x) = Some 0.
Proof.
  apply (rebalance_left_right_is_two_rotations
           (Mk "fakeParent"
              (Mk "e" (Mk "b" (new_Node "a") (Mk "c" Nil (new_Node "d") 1) 1)
                 (new_Node "f") (-2)) Nil 0) AtLeft
           "e" "b" (new_Node "a") (Mk "c" Nil (new_Node "d") 1) (new_Node "f")
           1 (-2)).
  - reflexivity.
  - reflexivity.
  - reflexivity.
  - vm_compute. repeat split.
Defined.

(** C10: when every [bal] below the slot is the true height difference and
    the pair [(child.bal, overweight-side bal)] selects a row of the table,
    [rebalance] performs that row's rotation, every node the rotation
    dereferences is there, and [rebalance] returns. *)
Theorem rebalance_dereferences_no_nil (n : Node) (s : Slot) (c : Node)
  (rot : Rotation) :
  get_child n s = Some c -> bal_exact c -> table_row c = Some rot ->
  match rot with
  | RotateRight =>
      rebalance n s = rotateRight n s /\
      exists l, get_Left c = Some l /\ is_nil l = false
  | RotateLeft =>
      rebalance n s = rotateLeft n s /\
      exists r, get_Right c = Some r /\ is_nil r = false
  | RotateLeftRight =>
      rebalance n s = rotateLeftRight n s /\
      exists l g, get_Left c = Some l /\ is_nil l = false /\
                  get_Right l = Some g /\ is_nil g = false
  | RotateRightLeft =>
      rebalance n s = rotateRightLeft n s /\
      exists r g, get_Right c = Some r /\ is_nil r = false /\
                  get_Left r = Some g /\ is_nil g = false
  end /\
  exists n', rebalance n s = Some n'.
Proof.
  intros Hc Hex Hrow.
  assert (Hn : exists pv pl pr pb, n = Mk pv pl pr pb).
  { destruct n; [destruct s; discriminate|]. eauto. }
  destruct Hn as (pv & pl & pr & pb & ->).
  destruct c as [|cv l r cb]; [discriminate|].
  cbn [table_row] in Hrow. unfold rebalance. rewrite Hc.
  cbn [bind get_bal get_Left get_Right and_then].
  destruct Hex as (_ & Hl & Hr).
  destruct (cb =? -2) eqn:E1.
  - apply Z.eqb_eq in E1. subst cb.
    destruct l as [|lv ll lr lb]; [discriminate|].
    cbn [bind get_bal and_then]. change (-2 =? 2) with false.
    cbn [bind and_then].
    destruct (lb =? -1) eqn:E2.
    + injection Hrow as <-. rewrite (rotateRight_Some _ _ _ _ _ _ _ _ _ Hc).
      split; [split; [reflexivity|eauto]|].
      destruct s; cbn; eauto.
    + destruct (lb =? 1) eqn:E3; [|discriminate]. injection Hrow as <-.
      apply Z.eqb_eq in E3. subst lb. destruct Hl as (Hlb & _ & _).
      destruct lr as [|gv gl gr gb].
      { cbn [height] in Hlb. pose proof (height_nonneg ll). lia. }
      rewrite (rotateLeftRight_Some _ _ _ _ _ _ _ _ _ _ _ _ Hc).
      split; [split; [reflexivity|]|].
      * do 2 eexists. repeat split.
      * destruct s; cbn; eauto.
  - destruct (cb =? 2) eqn:E2; [|discriminate].
    apply Z.eqb_eq in E2. subst cb.
    destruct r as [|rv rl rr rb]; [discriminate|].
    cbn [bind get_bal and_then].
    destruct (rb =? 1) eqn:E3.
    + injection Hrow as <-. rewrite (rotateLeft_Some _ _ _ _ _ _ _ _ _ Hc).
      split; [split; [reflexivity|eauto]|].
      destruct s; cbn; eauto.
    + destruct (rb =? -1) eqn:E4; [|discriminate]. injection Hrow as <-.
      apply Z.eqb_eq in E4. subst rb. destruct Hr as (Hrb & _ & _).
      destruct rl as [|gv gl gr gb].
      { cbn [height] in Hrb. pose proof (height_nonneg rr). lia. }
      rewrite (rotateRightLeft_Some _ _ _ _ _ _ _ _ _ _ _ _ Hc).
      split; [split; [reflexivity|]|].
      * do 2 eexists. repeat split.
      * destruct s; cbn; eauto.
Qed.

Lemma rebalance_dereferences_no_nil_witness :
  (rebalance (Mk "p" Nil
                (Mk "a" Nil (Mk "c" (new_Node "b") Nil (-1)) 2) 1) AtRight =
   rotateRightLeft (Mk "p" Nil
                      (Mk "a" Nil (Mk "c" (new_Node "b") Nil (-1)) 2) 1) AtRight /\
   exists r g,
     get_Right (Mk "a" Nil (Mk "c" (new_Node "b") Nil (-1)) 2) = Some r /\
     is_nil r = false /\ get_Left r = Some g /\ is_nil g = false) /\
  exists n',
    rebalance (Mk "p" Nil
                 (Mk "a" Nil (Mk "c" (new_Node "b") Nil (-1)) 2) 1) AtRight =
    Some n'.
Proof.
  apply (rebalance_dereferences_no_nil
           (Mk "p" Nil (Mk "a" Nil (Mk "c" (new_Node "b") Nil (-1)) 2) 1)
           AtRight (Mk "a" Nil (Mk "c" (new_Node "b") Nil (-1)) 2)
           RotateRightLeft).
  - reflexivity.
  - vm_compute. repeat split.
  - reflexivity.
Defined.

(** C8: a value that is not less than the receiver's value (an equal one
    included) goes to the right: the receiver's value and left subtree stay,
    an empty right slot receives a new node, and whenever [Insert] returns
    the tree holds every value it held plus one more occurrence of the new
    one, so its number of nodes has grown by one.  On every tree that
    satisfies [ok] and has every [bal] in range, as those built by
    insertions do, [Insert] returns. *)
Theorem Insert_not_less_goes_right (less : string -> string -> bool)
  (value v : string) (l r : Node) (b : Z) :
  less value v = false ->
  (r = Nil ->
   Insert less value (Mk v l r b) =
     Some (Mk v l (new_Node value) (if is_nil l then 1 else 0), is_nil l)) /\
  (forall n' g,
     Insert less value (Mk v l r b) = Some (n', g) ->
     (exists r' b', n' = Mk v l r' b' /\ inorder r' = descend less value r) /\
     Permutation (inorder n') (value :: inorder (Mk v l r b)) /\
     size n' = size (Mk v l r b) + 1) /\
  (ok (Mk v l r b) -> bal_in_range (Mk v l r b) ->
   exists n' g, Insert less value (Mk v l r b) = Some (n', g)).
Proof.
  intros Hlt. split; [|split].
  - intros ->. cbn [Insert]. rewrite Hlt. destruct l; reflexivity.
  - intros n' g H. split; [|split].
    + destruct (Insert_returns _ _ _ _ _ H)
        as (v0 & l0 & r0 & b0 & l' & r' & b' & E & -> & _ & Hd).
      injection E as <- <- <- <-. rewrite Hlt in Hd. destruct Hd as [-> Hd].
      eauto.
    + destruct (Insert_inorder _ _ _ _ _ H) as (_ & -> & _).
      apply descend_Permutation.
    + now destruct (Insert_inorder _ _ _ _ _ H) as (_ & _ & ->).
  - intros Hok Hrange.
    destruct (Insert_ok less value (Mk v l r b) eq_refl Hok Hrange)
      as (n' & g & H & _).
    eauto.
Qed.

Lemma Insert_not_less_goes_right_witness :
  exists n' g,
    Insert lex_less "b" (Mk "b" (new_Node "a") Nil (-1)) = Some (n', g) /\
    n' = Mk "b" (new_Node "a") (new_Node "b") 0 /\
    Permutation (inorder n')
      ("b"%string :: inorder (Mk "b" (new_Node "a") Nil (-1))) /\
    size n' = size (Mk "b" (new_Node "a") Nil (-1)) + 1.
Proof.
  destruct (Insert_not_less_goes_right lex_less "b" "b" (new_Node "a") Nil (-1)
              eq_refl) as (Hbase & Hret & Htot).
  destruct Htot as (n' & g & H).
  - vm_compute. intuition discriminate.
  - vm_compute. intuition discriminate.
  - exists n', g. split; [exact H|].
    destruct (Hret n' g H) as (_ & Hperm & Hsize).
    split; [|split; assumption].
    rewrite (Hbase eq_refl) in H. now injection H as <- _.
Defined.

(** C3: for every sequence of insertions under a consistent predicate, the
    insertions all return, and the in-order traversal of the tree they build
    visits the inserted values in non-decreasing order under the predicate. *)
Theorem Traverse_ascending (less : string -> string -> bool)
  (vs : list string) :
  consistent less ->
  exists t,
    insert_all less vs new_Tree = Some t /\
    ascending less (Tree_Traverse (Root t) emit_Value []) /\
    Permutation (Tree_Traverse (Root t) emit_Value []) vs.
Proof.
  intros Hc.
  destruct (insert_all_isort less vs Hc) as (t & H & _ & _ & Hin).
  exists t. unfold traversal in Hin. rewrite Hin.
  split; [assumption|]. split.
  - now apply isort_ascending.
  - apply isort_Permutation.
Qed.

Lemma Traverse_ascending_witness :
  exists t,
    insert_all lex_less ["c"; "a"; "d"; "b"; "a"]%string new_Tree = Some t /\
    ascending lex_less (Tree_Traverse (Root t) emit_Value []) /\
    Permutation (Tree_Traverse (Root t) emit_Value [])
      ["c"; "a"; "d"; "b"; "a"]%string.
Proof.
  apply (Traverse_ascending lex_less ["c"; "a"; "d"; "b"; "a"]%string).
  exact lex_less_consistent.
Defined.

(** C9 as stated fails: [shorter] is a consistent predicate, "a" and "b" are
    two distinct values, and the two orders of inserting them give two
    different traversals. *)
Lemma tied_values_keep_insertion_order :
  consistent shorter /\ NoDup ["a"; "b"]%string /\
  Permutation ["a"; "b"]%string ["b"; "a"]%string /\
  (exists t, insert_all shorter ["a"; "b"]%string new_Tree = Some t /\
             traversal t = ["a"; "b"]%string) /\
  (exists t, insert_all shorter ["b"; "a"]%string new_Tree = Some t /\
             traversal t = ["b"; "a"]%string).
Proof.
  split; [exact shorter_consistent|]. split; [|split; [apply perm_swap|]].
  - repeat constructor; cbn; intuition discriminate.
  - split; eexists; (split; [vm_compute; reflexivity|reflexivity]).
Qed.

(** C9, amended: for distinct values no two of which tie under a consistent
    predicate, inserting them in any order gives one and the same in-order
    traversal, and it is ascending. *)
Theorem traversal_independent_of_insertion_order
  (less : string -> string -> bool) (vs vs' : list string) :
  consistent less -> NoDup vs -> no_ties less vs -> Permutation vs vs' ->
  exists t t',
    insert_all less vs new_Tree = Some t /\
    insert_all less vs' new_Tree = Some t' /\
    traversal t = traversal t' /\
    ascending less (traversal t) /\ Permutation (traversal t) vs.
Proof.
  intros Hc _ Hnt Hp.
  destruct (insert_all_isort less vs Hc) as (t & H & _ & _ & Hin).
  destruct (insert_all_isort less vs' Hc) as (t' & H' & _ & _ & Hin').
  exists t, t'. rewrite Hin, Hin'. repeat split; try assumption.
  - apply (ascending_Permutation_eq less).
    + apply (no_ties_Permutation less vs); [|assumption].
      symmetry. apply isort_Permutation.
    + now apply isort_ascending.
    + now apply isort_ascending.
    + rewrite !isort_Permutation. assumption.
  - now apply isort_ascending.
  - apply isort_Permutation.
Qed.

Lemma traversal_independent_of_insertion_order_witness :
  exists t t',
    insert_all lex_less ["c"; "a"; "b"; "d"]%string new_Tree = Some t /\
    insert_all lex_less ["d"; "c"; "b"; "a"]%string new_Tree = Some t' /\
    traversal t = traversal t' /\
    ascending lex_less (traversal t) /\
    Permutation (traversal t) ["c"; "a"; "b"; "d"]%string.
Proof.
  apply (traversal_independent_of_insertion_order lex_less
           ["c"; "a"; "b"; "d"]%string ["d"; "c"; "b"; "a"]%string).
  - exact lex_less_consistent.
  - repeat constructor; cbn; intuition discriminate.
  - intros a b _ _. apply lex_less_total.
  - apply (Permutation_trans (l' := ["a"; "b"; "c"; "d"]%string)).
    + apply (Permutation_cons_app ["a"; "b"]%string ["d"]%string "c"%string).
      reflexivity.
    + apply (Permutation_rev ["a"; "b"; "c"; "d"]%string).
Defined.


(** * Further properties of the tree code *)

(** X1: each of the four rotations and [rebalance], whenever it returns, has
    replaced only the subtree below the slot, and the values of the tree are
    in the same in-order sequence as before. *)
Theorem rotations_keep_inorder (n : Node) (s : Slot) (n' : Node) :
  rotateLeft n s = Some n' \/ rotateRight n s = Some n' \/
  rotateLeftRight n s = Some n' \/ rotateRightLeft n s = Some n' \/
  rebalance n s = Some n' ->
  inorder n' = inorder n /\
  exists c c', get_child n s = Some c /\ redirect n s c' = Some n' /\
               inorder c' = inorder c.
Proof.
  intros H. destruct n as [|pv pl pr pb].
  { destruct s; repeat (destruct H as [H|H]; [discriminate|]); discriminate. }
  destruct s; [shapes pl | shapes pr];
    repeat (destruct H as [H|H]);
    unfold_methods H; cbv beta iota in H; try discriminate H; break H;
    injection H as <-; (split; [list_eq|]);
    do 2 eexists; (split; [reflexivity|]); (split; [reflexivity|]); list_eq.
Qed.

Lemma rotations_keep_inorder_witness :
  inorder (Mk "p" (Mk "b" (new_Node "a") (Mk "d" (new_Node "c") Nil 0) 0) Nil 0) =
  inorder (Mk "p" (Mk "d" (Mk "b" (new_Node "a") (new_Node "c") 0) Nil 0) Nil 0) /\
  exists c c',
    get_child (Mk "p" (Mk "d" (Mk "b" (new_Node "a") (new_Node "c") 0) Nil 0) Nil 0)
      AtLeft = Some c /\
    redirect (Mk "p" (Mk "d" (Mk "b" (new_Node "a") (new_Node "c") 0) Nil 0) Nil 0)
      AtLeft c' =
      Some (Mk "p" (Mk "b" (new_Node "a") (Mk "d" (new_Node "c") Nil 0) 0) Nil 0) /\
    inorder c' = inorder c.
Proof.
  apply (rotations_keep_inorder
           (Mk "p" (Mk "d" (Mk "b" (new_Node "a") (new_Node "c") 0) Nil 0) Nil 0)
           AtLeft).
  right. left. reflexivity.
Defined.

Lemma redirect_Some (n : Node) (s : Slot) (c x : Node) :
  get_child n s = Some c -> exists n', redirect n s x = Some n'.
Proof. destruct n, s; cbn; intros H; try discriminate; eauto. Qed.

(** X2: when every [bal] below the slot is the true height difference and
    [rebalance] selects a single rotation (rows -2/-1 and +2/+1), the subtree
    it leaves below the slot again has every [bal] equal to the true height
    difference, its root has [bal = 0], and it is one lower than the subtree
    it replaces. *)
Theorem single_rotation_restores_balance (n : Node) (s : Slot) (c : Node)
  (rot : Rotation) :
  get_child n s = Some c -> bal_exact c -> table_row c = Some rot ->
  rot = RotateRight \/ rot = RotateLeft ->
  exists n' c',
    rebalance n s = Some n' /\ redirect n s c' = Some n' /\
    bal_exact c' /\ get_bal c' = Some 0 /\ height c' = height c - 1.
Proof.
  intros Hc Hex Hrow Hrot.
  destruct c as [|cv l r cb]; [discriminate|].
  cbn [table_row] in Hrow. unfold rebalance. rewrite Hc.
  cbn [bind get_bal get_Left get_Right and_then].
  destruct (cb =? -2) eqn:E1.
  - apply Z.eqb_eq in E1. subst cb.
    destruct l as [|lv ll lr lb]; [discriminate|].
    cbn [bind get_bal and_then]. change (-2 =? 2) with false.
    cbn [bind and_then].
    destruct (lb =? -1) eqn:E2.
    + apply Z.eqb_eq in E2. subst lb.
      rewrite (rotateRight_Some _ _ _ _ _ _ _ _ _ Hc).
      destruct (redirect_Some n s _ (Mk lv ll (Mk cv lr r 0) 0) Hc) as (n' & Hn').
      exists n', (Mk lv ll (Mk cv lr r 0) 0).
      cbn [bal_exact height get_bal] in Hex |- *.
      repeat split; try tauto; lia.
    + destruct (lb =? 1); [|discriminate]. injection Hrow as <-.
      destruct Hrot; discriminate.
  - destruct (cb =? 2) eqn:E2; [|discriminate].
    apply Z.eqb_eq in E2. subst cb.
    destruct r as [|rv rl rr rb]; [discriminate|].
    cbn [bind get_bal and_then].
    destruct (rb =? 1) eqn:E3.
    + apply Z.eqb_eq in E3. subst rb.
      rewrite (rotateLeft_Some _ _ _ _ _ _ _ _ _ Hc).
      destruct (redirect_Some n s _ (Mk rv (Mk cv l rl 0) rr 0) Hc) as (n' & Hn').
      exists n', (Mk rv (Mk cv l rl 0) rr 0).
      cbn [bal_exact height get_bal] in Hex |- *.
      repeat split; try tauto; lia.
    + destruct (rb =? -1); [|discriminate]. injection Hrow as <-.
      destruct Hrot; discriminate.
Qed.

Lemma single_rotation_restores_balance_witness :
  exists n' c',
    rebalance (Mk "p" (Mk "c" (Mk "b" (new_Node "a") Nil (-1)) Nil (-2)) Nil (-1))
      AtLeft = Some n' /\
    redirect (Mk "p" (Mk "c" (Mk "b" (new_Node "a") Nil (-1)) Nil (-2)) Nil (-1))
      AtLeft c' = Some n' /\
    bal_exact c' /\ get_bal c' = Some 0 /\
    height c' = height (Mk "c" (Mk "b" (new_Node "a") Nil (-1)) Nil (-2)) - 1.
Proof.
  apply (single_rotation_restores_balance
           (Mk "p" (Mk "c" (Mk "b" (new_Node "a") Nil (-1)) Nil (-2)) Nil (-1))
           AtLeft (Mk "c" (Mk "b" (new_Node "a") Nil (-1)) Nil (-2)) RotateRight).
  - reflexivity.
  - vm_compute. repeat split.
  - reflexivity.
  - left. reflexivity.
Defined.

(** X3: when every [bal] below the slot is the true height difference and
    [rebalance] selects a double rotation (rows -2/+1 and +2/-1), the subtree
    it leaves below the slot is one lower than the one it replaces, and its
    [bal] fields are the true height differences exactly when the inner
    grandchild (the left child's right child, or the right child's left
    child) had [bal = 0]. *)
Theorem double_rotation_exact_iff_grandchild_balanced (n : Node) (s : Slot)
  (c : Node) (rot : Rotation) :
  get_child n s = Some c -> bal_exact c -> table_row c = Some rot ->
  rot = RotateLeftRight \/ rot = RotateRightLeft ->
  exists n' c' g,
    rebalance n s = Some n' /\ redirect n s c' = Some n' /\
    match rot with
    | RotateLeftRight => l <- get_Left c ;; get_Right l
    | _ => r <- get_Right c ;; get_Left r
    end = Some g /\
    height c' = height c - 1 /\
    (bal_exact c' <-> get_bal g = Some 0).
Proof.
  intros Hc Hex Hrow Hrot.
  destruct c as [|cv l r cb]; [discriminate|].
  cbn [table_row] in Hrow. unfold rebalance. rewrite Hc.
  cbn [bind get_bal get_Left get_Right and_then].
  destruct (cb =? -2) eqn:E1.
  - apply Z.eqb_eq in E1. subst cb.
    destruct l as [|lv ll lr lb]; [discriminate|].
    cbn [bind get_bal and_then]. change (-2 =? 2) with false.
    cbn [bind and_then].
    destruct (lb =? -1) eqn:E2.
    { injection Hrow as <-. destruct Hrot; discriminate. }
    destruct (lb =? 1) eqn:E3; [|discriminate]. injection Hrow as <-.
    apply Z.eqb_eq in E3. subst lb.
    destruct lr as [|gv gl gr gb].
    { cbn [bal_exact height] in Hex. pose proof (height_nonneg ll). lia. }
    rewrite (rotateLeftRight_Some _ _ _ _ _ _ _ _ _ _ _ _ Hc).
    destruct (redirect_Some n s _ (Mk gv (Mk lv ll gl 0) (Mk cv gr r 0) 0) Hc)
      as (n' & Hn').
    exists n', (Mk gv (Mk lv ll gl 0) (Mk cv gr r 0) 0), (Mk gv gl gr gb).
    cbn [bal_exact height get_bal bind get_Left get_Right] in Hex |- *.
    pose proof (height_nonneg gl). pose proof (height_nonneg gr).
    split; [exact Hn'|]. split; [exact Hn'|]. split; [reflexivity|].
    split; [lia|]. split.
    + intros Hx. f_equal. lia.
    + intros Hg. injection Hg as ->. repeat split; try tauto; lia.
  - destruct (cb =? 2) eqn:E2; [|discriminate].
    apply Z.eqb_eq in E2. subst cb.
    destruct r as [|rv rl rr rb]; [discriminate|].
    cbn [bind get_bal and_then].
    destruct (rb =? 1) eqn:E3.
    { injection Hrow as <-. destruct Hrot; discriminate. }
    destruct (rb =? -1) eqn:E4; [|discriminate]. injection Hrow as <-.
    apply Z.eqb_eq in E4. subst rb.
    destruct rl as [|gv gl gr gb].
    { cbn [bal_exact height] in Hex. pose proof (height_nonneg rr). lia. }
    rewrite (rotateRightLeft_Some _ _ _ _ _ _ _ _ _ _ _ _ Hc).
    destruct (redirect_Some n s _ (Mk gv (Mk cv l gl 0) (Mk rv gr rr 0) 0) Hc)
      as (n' & Hn').
    exists n', (Mk gv (Mk cv l gl 0) (Mk rv gr rr 0) 0), (Mk gv gl gr gb).
    cbn [bal_exact height get_bal bind get_Left get_Right] in Hex |- *.
    pose proof (height_nonneg gl). pose proof (height_nonneg gr).
    split; [exact Hn'|]. split; [exact Hn'|]. split; [reflexivity|].
    split; [lia|]. split.
    + intros Hx. f_equal. lia.
    + intros Hg. injection Hg as ->. repeat split; try tauto; lia.
Qed.

Lemma double_rotation_exact_iff_grandchild_balanced_witness :
  exists n' c' g,
    rebalance
      (Mk "fakeParent"
         (Mk "e" (Mk "b" (new_Node "a") (Mk "d" (new_Node "c") Nil (-1)) 1)
            (new_Node "f") (-2)) Nil 0) AtLeft = Some n' /\
    redirect
      (Mk "fakeParent"
         (Mk "e" (Mk "b" (new_Node "a") (Mk "d" (new_Node "c") Nil (-1)) 1)
            (new_Node "f") (-2)) Nil 0) AtLeft c' = Some n' /\
    (l <- get_Left
            (Mk "e" (Mk "b" (new_Node "a") (Mk "d" (new_Node "c") Nil (-1)) 1)
               (new_Node "f") (-2)) ;;
     get_Right l) = Some g /\
    height c' =
      height (Mk "e" (Mk "b" (new_Node "a") (Mk "d" (new_Node "c") Nil (-1)) 1)
                (new_Node "f") (-2)) - 1 /\
    (bal_exact c' <-> get_bal g = Some 0).
Proof.
  apply (double_rotation_exact_iff_grandchild_balanced
           (Mk "fakeParent"
              (Mk "e" (Mk "b" (new_Node "a") (Mk "d" (new_Node "c") Nil (-1)) 1)
                 (new_Node "f") (-2)) Nil 0) AtLeft
           (Mk "e" (Mk "b" (new_Node "a") (Mk "d" (new_Node "c") Nil (-1)) 1)
              (new_Node "f") (-2)) RotateLeftRight).
  - reflexivity.
  - vm_compute. repeat split.
  - reflexivity.
  - left. reflexivity.
Defined.




(** X5: under a consistent predicate the traversal of the tree built from a
    sequence of insertions is the stable insertion sort of that sequence:
    ascending, with values that tie in the order of their insertion. *)
Theorem traversal_is_stable_insertion_sort
  (less : string -> string -> bool) (vs : list string) :
  consistent less ->
  exists t,
    insert_all less vs new_Tree = Some t /\
    Tree_Traverse (Root t) emit_Value [] = isort less vs.
Proof.
  intros Hc. destruct (insert_all_isort less vs Hc) as (t & H & _ & _ & Hin).
  exists t. split; [exact H|exact Hin].
Qed.

Lemma traversal_is_stable_insertion_sort_witness :
  exists t,
    insert_all shorter ["bb"; "a"; "cc"; "d"; "ee"]%string new_Tree = Some t /\
    Tree_Traverse (Root t) emit_Value [] =
      isort shorter ["bb"; "a"; "cc"; "d"; "ee"]%string.
Proof.
  apply (traversal_is_stable_insertion_sort shorter).
  exact shorter_consistent.
Defined.

(** X7: on a tree whose [bal]s are all in {-1, 0, 1}, whenever [Insert]
    returns a node whose [bal] is out of that range (so that the caller
    invokes [rebalance] on it), the pair [(bal, overweight-side bal)] is one
    of the four rows of the switch in [rebalance], and everything below that
    node is still in range: the switch never falls through after an
    insertion. *)
Theorem Insert_hands_rebalance_a_listed_pair
  (less : string -> string -> bool) (value : string) (n n' : Node) (g : bool)
  (b' : Z) :
  bal_in_range n -> Insert less value n = Some (n', g) ->
  get_bal n' = Some b' -> out_of_range b' = true ->
  (exists rot, table_row n' = Some rot) /\
  (exists l r, get_Left n' = Some l /\ get_Right n' = Some r /\
               bal_in_range l /\ bal_in_range r).
Proof.
  intros Hr H Hb Ho. pose proof (Insert_range _ _ _ _ _ Hr H) as Hn'.
  destruct n' as [|v l r b]; [discriminate|]. injection Hb as ->.
  cbn [in_range_below] in Hn'. destruct Hn' as (Hl & Hrr & Hcase).
  split; [|exists l, r; now repeat split].
  unfold out_of_range in Ho. cbn [table_row].
  destruct Hcase as [Hin|[(-> & lb & Hlb & Hv)|(-> & rb & Hrb & Hv)]].
  - exfalso. rewrite orb_true_iff, Z.ltb_lt, Z.gtb_ltb, Z.ltb_lt in Ho. lia.
  - destruct l as [|lv ll lr lb0]; [discriminate|]. injection Hlb as ->.
    cbn. destruct Hv as [->| ->]; cbn; eauto.
  - destruct r as [|rv rl rr rb0]; [discriminate|]. injection Hrb as ->.
    cbn. destruct Hv as [->| ->]; cbn; eauto.
Qed.

Lemma Insert_hands_rebalance_a_listed_pair_witness :
  (exists rot,
     table_row (Mk "c" (Mk "b" (new_Node "a") Nil (-1)) Nil (-2)) = Some rot) /\
  (exists l r,
     get_Left (Mk "c" (Mk "b" (new_Node "a") Nil (-1)) Nil (-2)) = Some l /\
     get_Right (Mk "c" (Mk "b" (new_Node "a") Nil (-1)) Nil (-2)) = Some r /\
     bal_in_range l /\ bal_in_range r).
Proof.
  apply (Insert_hands_rebalance_a_listed_pair lex_less "a"
           (Mk "c" (new_Node "b") Nil (-1))
           (Mk "c" (Mk "b" (new_Node "a") Nil (-1)) Nil (-2)) true (-2)).
  - vm_compute. intuition discriminate.
  - reflexivity.
  - reflexivity.
  - reflexivity.
Defined.

Lemma ascending_app_r (less : string -> string -> bool) (l1 l2 : list string) :
  ascending less (l1 ++ l2) -> ascending less l2.
Proof.
  unfold ascending. induction l1 as [|x l1 IH]; cbn [app]; intros H;
    [assumption|].
  apply StronglySorted_inv in H. now apply IH.
Qed.

Lemma ascending_search_ordered (less : string -> string -> bool) (n : Node) :
  ascending less (inorder n) -> search_ordered less n.
Proof.
  induction n as [|v l IHl r IHr b]; cbn [inorder search_ordered]; intros H;
    [exact I|].
  pose proof (ascending_app_r _ _ _ H) as Hr.
  apply StronglySorted_inv in Hr. destruct Hr as [Hr Hv].
  unfold ascending in H.
  assert (Hl : ascending less (inorder l) /\
               Forall (fun a => less v a = false) (inorder l)).
  { clear - H. induction (inorder l) as [|x xs IH]; cbn [app] in H.
    - split; constructor.
    - apply StronglySorted_inv in H. destruct H as [Hs Hx].
      destruct (IH Hs) as [H1 H2]. rewrite Forall_app in Hx.
      destruct Hx as [Hx1 Hx2]. split.
      + now constructor.
      + constructor; [now inversion Hx2|assumption]. }
  destruct Hl as [Hl Hlv]. repeat split; auto.
Qed.

(** X6: under a consistent predicate every tree built by insertions is a
    search tree at every node: no value of the left subtree is greater than
    the node's value, and no value of the right subtree is less than it. *)
Theorem insertions_keep_search_order (less : string -> string -> bool)
  (vs : list string) :
  consistent less ->
  exists t, insert_all less vs new_Tree = Some t /\ search_ordered less (Root t).
Proof.
  intros Hc. destruct (insert_all_isort less vs Hc) as (t & H & _ & _ & Hin).
  exists t. split; [exact H|]. apply ascending_search_ordered.
  rewrite <- traversal_inorder, Hin. now apply isort_ascending.
Qed.

Lemma insertions_keep_search_order_witness :
  exists t,
    insert_all lex_less ["d"; "b"; "b"; "a"; "c"; "b"]%string new_Tree = Some t /\
    search_ordered lex_less (Root t).
Proof.
  apply (insertions_keep_search_order lex_less). exact lex_less_consistent.
Defined.

(** * Dump *)

Lemma wrap_small (z : Z) : 0 <= z <= 2 ^ 62 -> GoInt.wrap z = z.
Proof.
  intros H. apply wrap_id. unfold GoInt.min_int, GoInt.max_int. lia.
Qed.

Lemma Repeat_space (count : Z) :
  0 <= count <= 2 ^ 62 -> exists spaces, Repeat " " count = Some spaces.
Proof.
  intros H. unfold Repeat.
  replace (count <? 0) with false by (symmetry; apply Z.ltb_ge; lia).
  replace (GoInt.max_int <? Z.of_nat (String.length " ") * count) with false.
  - cbn [orb]. eauto.
  - symmetry. apply Z.ltb_ge. unfold GoInt.max_int. cbn [String.length]. lia.
Qed.

Lemma Dump_prints_preorder (n : Node) :
  forall i lr out,
    0 <= i -> i + height n <= 2 ^ 60 ->
    exists lines,
      Dump n i lr out = Some (out ++ lines) /\
      Forall2 (fun line vb => exists indent,
                   line = Dump_line indent (fst vb) (snd vb))
              lines (preorder n).
Proof.
  induction n as [|v l IHl r IHr b]; intros i lr out Hi Hh.
  - exists []. cbn [Dump preorder]. rewrite app_nil_r. split; constructor.
  - cbn [height] in Hh. pose proof (height_nonneg l). pose proof (height_nonneg r).
    assert (Hincr : GoInt.incr i = i + 1).
    { unfold GoInt.incr. apply wrap_small. lia. }
    assert (Hind : exists indent,
               (if i >? 0
                then spaces <- Repeat " " (int_mul (GoInt.decr i) 4) ;;
                     Some (spaces ++ "+" ++ lr ++ "--")%string
                else Some EmptyString) = Some indent).
    { destruct (i >? 0) eqn:E; [|eauto].
      rewrite Z.gtb_ltb, Z.ltb_lt in E.
      assert (Hd : GoInt.decr i = i - 1).
      { unfold GoInt.decr. apply wrap_small. lia. }
      rewrite Hd. unfold int_mul. rewrite wrap_small by lia.
      destruct (Repeat_space ((i - 1) * 4)) as (sp & ->); [lia|].
      cbn [bind]. eauto. }
    destruct Hind as (indent & Hind).
    cbn [Dump preorder]. rewrite Hind. cbn [bind]. rewrite Hincr.
    destruct (IHl (i + 1) "L"%string (out ++ [Dump_line indent v b]))
      as (ll & Hl & Hfl); [lia|lia|].
    rewrite Hl. cbn [bind].
    destruct (IHr (i + 1) "R"%string ((out ++ [Dump_line indent v b]) ++ ll))
      as (lr' & Hr & Hfr); [lia|lia|].
    rewrite Hr. exists (Dump_line indent v b :: ll ++ lr'). split.
    + f_equal. rewrite <- !app_assoc. reflexivity.
    + constructor; [exists indent; reflexivity|]. now apply Forall2_app.
Qed.

(** X8: [Tree.Dump] on a tree of height at most 2^60 returns (the argument
    of [strings.Repeat] is never negative) and prints exactly one line per
    node, in pre-order: the root first, then the left subtree, then the
    right one; every line ends with the node's value and its [bal] in
    brackets.  What was printed before stays. *)
Theorem Tree_Dump_prints_every_node_once (t : Tree) (out : list string) :
  height (Root t) <= 2 ^ 60 ->
  exists lines,
    Tree_Dump t out = Some (out ++ lines) /\
    Forall2 (fun line vb => exists indent,
                 line = Dump_line indent (fst vb) (snd vb))
            lines (preorder (Root t)) /\
    List.length lines = List.length (inorder (Root t)).
Proof.
  intros Hh. unfold Tree_Dump.
  destruct (Dump_prints_preorder (Root t) 0 EmptyString out) as (lines & H & Hf);
    [lia|lia|].
  exists lines. split; [exact H|]. split; [exact Hf|].
  rewrite (Forall2_length Hf). clear.
  induction (Root t) as [|v l IHl r IHr b]; cbn [preorder inorder];
    [reflexivity|].
  rewrite !length_app. cbn [List.length]. rewrite length_app. lia.
Qed.

Lemma Tree_Dump_prints_every_node_once_witness :
  exists lines,
    Tree_Dump {| Root := Mk "b" (new_Node "a") (new_Node "c") 0 |} [] =
      Some ([] ++ lines) /\
    Forall2 (fun line vb => exists indent,
                 line = Dump_line indent (fst vb) (snd vb))
            lines (preorder (Mk "b" (new_Node "a") (new_Node "c") 0)) /\
    List.length lines =
      List.length (inorder (Mk "b" (new_Node "a") (new_Node "c") 0)).
Proof.
  apply (Tree_Dump_prints_every_node_once
           {| Root := Mk "b" (new_Node "a") (new_Node "c") 0 |} []).
  vm_compute. discriminate.
Defined.

(** * The program *)

Section ProgramFacts.

Variable TrimSpace : string -> string.
Variable ToLower : string -> string.

(** One round of the loop of [less], as the source has it. *)
Lemma less_round (a b : string) (w : World) :
  less TrimSpace ToLower a b w =
  let out := stdout w ++ [prompt a b] in
  let '(line, err, r) := ReadString (stdin w) in
  if err then Panic ReadFailed {| stdin := r; stdout := out |}
  else
    let choice := ToLower (TrimSpace line) in
    if String.eqb choice "a" then Ok true {| stdin := r; stdout := out |}
    else if String.eqb choice "b" then Ok false {| stdin := r; stdout := out |}
    else less TrimSpace ToLower a b
           {| stdin := r; stdout := out ++ [complaint] |}.
Proof.
  unfold less, ReadString. destruct (pending (stdin w)); reflexivity.
Qed.

Lemma less_loop_invalid (a b : string) (bad lines : list string) (tl : string)
  (out : list string) :
  Forall (invalid_line TrimSpace ToLower) bad ->
  less_loop TrimSpace ToLower a b (bad ++ lines) tl out =
  less_loop TrimSpace ToLower a b lines tl
    (out ++ flat_map (fun _ => [prompt a b; complaint]) bad).
Proof.
  intros Hbad. revert out. induction Hbad as [|x bad [Ha Hb] Hbad IH]; intros out.
  - cbn [app flat_map]. now rewrite app_nil_r.
  - cbn [app less_loop flat_map].
    apply String.eqb_neq in Ha. apply String.eqb_neq in Hb.
    rewrite Ha, Hb, IH. f_equal. rewrite <- !app_assoc. reflexivity.
Qed.

Lemma less_loop_valid (a b line : string) (lines : list string) (tl : string)
  (out : list string) :
  ToLower (TrimSpace line) = "a"%string \/ ToLower (TrimSpace line) = "b"%string ->
  less_loop TrimSpace ToLower a b (line :: lines) tl out =
  Ok (String.eqb (ToLower (TrimSpace line)) "a")
     {| stdin := {| pending := lines; rest := tl |};
        stdout := out ++ [prompt a b] |}.
Proof.
  intros [H|H]; cbn [less_loop]; rewrite H; reflexivity.
Qed.

(** X9: [less] prints its prompt and reads a line, again and again, until a
    line reads a or b once trimmed and put in lower case; it returns true
    for a and false for b, has consumed exactly the lines up to that one,
    and has printed the complaint once for every line it skipped.  When the
    input ends before such a line, it panics after a last prompt. *)
Theorem less_asks_until_the_answer_is_valid (a b : string)
  (bad : list string) (good : string) (more : list string) (tl : string)
  (out : list string) :
  Forall (invalid_line TrimSpace ToLower) bad ->
  ToLower (TrimSpace good) = "a"%string \/ ToLower (TrimSpace good) = "b"%string ->
  less TrimSpace ToLower a b
    {| stdin := {| pending := bad ++ good :: more; rest := tl |};
       stdout := out |} =
    Ok (String.eqb (ToLower (TrimSpace good)) "a")
       {| stdin := {| pending := more; rest := tl |};
          stdout := out ++ flat_map (fun _ => [prompt a b; complaint]) bad
                        ++ [prompt a b] |} /\
  less TrimSpace ToLower a b
    {| stdin := {| pending := bad; rest := tl |}; stdout := out |} =
    Panic ReadFailed
       {| stdin := {| pending := []; rest := EmptyString |};
          stdout := out ++ flat_map (fun _ => [prompt a b; complaint]) bad
                        ++ [prompt a b] |}.
Proof.
  intros Hbad Hgood. unfold less. cbn [stdin stdout pending rest]. split.
  - rewrite (less_loop_invalid a b bad _ tl out Hbad).
    rewrite (less_loop_valid a b good more tl _ Hgood).
    now rewrite <- app_assoc.
  - rewrite <- (app_nil_r bad) at 1.
    rewrite (less_loop_invalid a b bad [] tl out Hbad).
    cbn [less_loop]. now rewrite <- app_assoc.
Qed.

(** Insert with the predicate of the program, on input that answers as
    [ord]. *)
Lemma Insert_io_answers (ord : string -> string -> bool) (value : string)
  (n : Node) :
  forall lines more tl out,
    Forall2 (fun line v => answers TrimSpace ToLower ord line (value, v))
            lines (descent ord value n) ->
    Insert_io (less TrimSpace ToLower) value n
      {| stdin := {| pending := lines ++ more; rest := tl |}; stdout := out |} =
    let w' := {| stdin := {| pending := more; rest := tl |};
                 stdout := out ++ map (prompt value) (descent ord value n) |} in
    match Insert ord value n with
    | Some r => Ok r w'
    | None => Panic NilDereference w'
    end.
Proof.
  induction n as [|v l IHl r IHr b]; intros lines more tl out Hl.
  - inversion Hl; subst. cbn. now rewrite app_nil_r.
  - cbn [descent] in Hl. inversion Hl as [|line v0 lines' d' Hline Hrest]; subst.
    unfold answers in Hline. cbn [fst snd] in Hline.
    cbn [Insert_io Insert descent map]. unfold bindIO at 1.
    unfold less at 1. cbn [stdin stdout pending rest app].
    rewrite less_loop_valid
      by (rewrite Hline; destruct (ord value v); [left|right]; reflexivity).
    rewrite Hline.
    replace (out ++ prompt value v :: map (prompt value)
               (if ord value v then descent ord value l else descent ord value r))
      with ((out ++ [prompt value v]) ++ map (prompt value)
               (if ord value v then descent ord value l else descent ord value r))
      by (now rewrite <- app_assoc).
    destruct (ord value v) eqn:Hord; cbn [String.eqb Ascii.eqb Bool.eqb].
    + destruct l as [|lv ll lr lb].
      * inversion Hrest; subst. cbn. rewrite app_nil_r.
        destruct (is_nil r); reflexivity.
      * unfold bindIO. rewrite (IHl _ _ _ _ Hrest). cbv zeta.
        destruct (Insert ord value (Mk lv ll lr lb)) as [[l1 g1]|]; [|reflexivity].
        cbn [bind]. destruct g1.
        -- destruct l1 as [|v1 a1 c1 b1]; [reflexivity|]. cbn [get_bal bind lift].
           destruct (out_of_range b1).
           ++ unfold lift. destruct (rebalance _ AtLeft) as [n1|]; [|reflexivity].
              cbn [bind]. destruct n1; reflexivity.
           ++ reflexivity.
        -- reflexivity.
    + destruct r as [|rv rl rr rb].
      * inversion Hrest; subst. cbn. rewrite app_nil_r.
        destruct (is_nil l); reflexivity.
      * unfold bindIO. rewrite (IHr _ _ _ _ Hrest). cbv zeta.
        destruct (Insert ord value (Mk rv rl rr rb)) as [[r1 g1]|]; [|reflexivity].
        cbn [bind]. destruct g1.
        -- destruct r1 as [|v1 a1 c1 b1]; [reflexivity|]. cbn [get_bal bind lift].
           destruct (out_of_range b1).
           ++ unfold lift. destruct (rebalance _ AtRight) as [n1|]; [|reflexivity].
              cbn [bind]. destruct n1; reflexivity.
           ++ reflexivity.
        -- reflexivity.
Qed.

Lemma descent_height (ord : string -> string -> bool) (value : string)
  (n : Node) :
  Z.of_nat (List.length (descent ord value n)) <= height n.
Proof.
  induction n as [|v l IHl r IHr b]; cbn [descent height List.length]; [lia|].
  destruct (ord value v); lia.
Qed.

(** X10: when the lines typed at the prompts answer as the predicate [ord]
    does, [Insert] with the [less] of the program returns what [Insert] with
    [ord] returns (and panics when that one dereferences nil); it has asked
    one question for every node on the way down, at most as many as the tree
    is high, has consumed those lines and no other, and has printed one
    prompt for each. *)
Theorem Insert_with_a_user_who_answers_as_the_predicate
  (ord : string -> string -> bool) (value : string) (n : Node)
  (lines more : list string) (tl : string) (out : list string) :
  Forall2 (fun line v => answers TrimSpace ToLower ord line (value, v))
          lines (descent ord value n) ->
  Insert_io (less TrimSpace ToLower) value n
    {| stdin := {| pending := lines ++ more; rest := tl |}; stdout := out |} =
    (let w' := {| stdin := {| pending := more; rest := tl |};
                  stdout := out ++ map (prompt value) (descent ord value n) |} in
     match Insert ord value n with
     | Some r => Ok r w'
     | None => Panic NilDereference w'
     end) /\
  Z.of_nat (List.length lines) <= height n.
Proof.
  intros H. split; [now apply Insert_io_answers|].
  rewrite (Forall2_length H). apply descent_height.
Qed.

Lemma Tree_Insert_io_answers (ord : string -> string -> bool) (value : string)
  (t : Tree) (lines more : list string) (tl : string) (out : list string) :
  Forall2 (fun line v => answers TrimSpace ToLower ord line (value, v))
          lines (descent ord value (Root t)) ->
  Tree_Insert_io (less TrimSpace ToLower) value t
    {| stdin := {| pending := lines ++ more; rest := tl |}; stdout := out |} =
  let w' := {| stdin := {| pending := more; rest := tl |};
               stdout := out ++ map (prompt value)
                                    (descent ord value (Root t)) |} in
  match Tree_Insert ord value t with
  | Some t' => Ok t' w'
  | None => Panic NilDereference w'
  end.
Proof.
  intros H. unfold Tree_Insert_io, Tree_Insert.
  destruct (Root t) as [|v l r b] eqn:Et.
  - inversion H; subst. cbn. now rewrite app_nil_r.
  - unfold bindIO. rewrite (Insert_io_answers ord value _ _ _ _ _ H). cbv zeta.
    destruct (Insert ord value (Mk v l r b)) as [[root g]|]; [|reflexivity].
    cbn [bind]. destruct root as [|v1 a1 c1 b1]; [reflexivity|].
    cbn [get_bal lift bind]. destruct (out_of_range b1); [|reflexivity].
    unfold lift. destruct (Tree_rebalance _); reflexivity.
Qed.

Lemma Forall2_map_pair {A : Type} (R : A -> string * string -> Prop)
  (x : string) (l : list A) (d : list string) :
  Forall2 R l (map (pair x) d) -> Forall2 (fun a v => R a (x, v)) l d.
Proof.
  revert l. induction d as [|v d IH]; intros l H; inversion H; subst;
    constructor; auto.
Qed.

Lemma insert_all_io_answers (ord : string -> string -> bool) (vs : list string) :
  forall t lines more tl out,
    Forall2 (answers TrimSpace ToLower ord) lines (comparisons ord vs t) ->
    insert_all_io (less TrimSpace ToLower) vs t
      {| stdin := {| pending := lines ++ more; rest := tl |}; stdout := out |} =
    let w' := {| stdin := {| pending := more; rest := tl |};
                 stdout := out ++ map (fun q => prompt (fst q) (snd q))
                                      (comparisons ord vs t) |} in
    match insert_all ord vs t with
    | Some t' => Ok t' w'
    | None => Panic NilDereference w'
    end.
Proof.
  induction vs as [|x vs IH]; intros t lines more tl out H.
  - inversion H; subst. cbn. now rewrite app_nil_r.
  - cbn [comparisons] in H. apply Forall2_app_inv_r in H.
    destruct H as (l1 & l2 & H1 & H2 & ->).
    apply Forall2_map_pair in H1.
    cbn [insert_all_io insert_all comparisons]. unfold bindIO.
    rewrite <- app_assoc.
    rewrite (Tree_Insert_io_answers ord x t l1 (l2 ++ more) tl out H1). cbv zeta.
    rewrite map_app, map_map. cbn [fst snd].
    destruct (Tree_Insert ord x t) as [t1|].
    + cbn [bind]. rewrite (IH t1 l2 more tl _ H2). cbv zeta.
      rewrite <- app_assoc. reflexivity.
    + inversion H2; subst. cbn. now rewrite !app_nil_r.
Qed.

Lemma Traverse_emit_line (n : Node) (out : list string) :
  Tree_Traverse n emit_line out =
  out ++ map (fun v => (v ++ nl)%string) (inorder n).
Proof.
  revert out. induction n as [|v l IHl r IHr b]; intros out;
    cbn [Tree_Traverse inorder map].
  - now rewrite app_nil_r.
  - rewrite IHr. cbn [emit_line]. rewrite IHl, map_app. cbn [map].
    rewrite <- !app_assoc. reflexivity.
Qed.

(** X11: the whole program.  Given a file with at least one element and a
    user whose answers follow a consistent predicate [ord], [main] asks the
    comparisons of the insertions in turn, prints the closing message, waits
    for one more line, and prints the elements of the file, one per line, as
    the stable insertion sort under [ord] orders them; it leaves the rest of
    the input unread and does not panic. *)
Theorem main_prints_the_elements_in_order
  (arg0 filename : string) (args : list string)
  (files : string -> option string) (content : string)
  (ord : string -> string -> bool)
  (lines : list string) (enter : string) (more : list string) (tl : string)
  (out : list string) :
  files filename = Some content ->
  read_elements TrimSpace (pending (NewReader content)) <> [] ->
  consistent ord ->
  Forall2 (answers TrimSpace ToLower ord) lines
    (comparisons ord (read_elements TrimSpace (pending (NewReader content)))
       new_Tree) ->
  main TrimSpace ToLower (arg0 :: filename :: args) files
    {| stdin := {| pending := lines ++ enter :: more; rest := tl |};
       stdout := out |} =
  Ok tt
    {| stdin := {| pending := more; rest := tl |};
       stdout :=
         out ++
         map (fun q => prompt (fst q) (snd q))
           (comparisons ord
              (read_elements TrimSpace (pending (NewReader content))) new_Tree) ++
         [done_message] ++
         map (fun v => (v ++ nl)%string)
           (isort ord (read_elements TrimSpace (pending (NewReader content)))) |}.
Proof.
  intros Hfile Hne Hc Hans. unfold main. rewrite Hfile.
  destruct (read_elements TrimSpace (pending (NewReader content)))
    as [|e input] eqn:Ein; [contradiction|].
  unfold bindIO.
  rewrite (insert_all_io_answers ord (e :: input) new_Tree lines
             (enter :: more) tl out Hans). cbv zeta.
  destruct (insert_all_isort ord (e :: input) Hc) as (t & Ht & _ & _ & Htr).
  rewrite Ht. unfold print. cbn [stdin stdout ReadString pending rest].
  rewrite Traverse_emit_line, <- traversal_inorder, Htr.
  rewrite <- !app_assoc. reflexivity.
Qed.

Lemma read_elements_filter (lines : list string) :
  read_elements TrimSpace lines =
  filter (fun el => negb (String.eqb el "")) (map TrimSpace lines).
Proof.
  induction lines as [|line lines IH]; cbn [read_elements map filter];
    [reflexivity|].
  destruct (String.eqb (TrimSpace line) ""); cbn [negb]; now rewrite IH.
Qed.

End ProgramFacts.

Lemma lines_of_no_nl (tl : string) :
  no_nl tl = true -> lines_of tl = ([], tl).
Proof.
  induction tl as [|c tl IH]; cbn [no_nl lines_of]; [reflexivity|].
  rewrite andb_true_iff, negb_true_iff. intros [Hc Htl].
  rewrite (IH Htl), Hc. reflexivity.
Qed.

Lemma lines_of_line (l : string) (s : string) (ls : list string) (tl : string) :
  no_nl l = true -> lines_of s = (ls, tl) ->
  lines_of (l ++ nl ++ s) = ((l ++ nl)%string :: ls, tl).
Proof.
  intros Hl Hs. induction l as [|c l IH].
  - cbn. rewrite Hs. reflexivity.
  - cbn [no_nl] in Hl. rewrite andb_true_iff, negb_true_iff in Hl.
    destruct Hl as [Hc Hl]. cbn [String.append lines_of].
    rewrite (IH Hl), Hc. reflexivity.
Qed.

Lemma lines_of_file_text (ls : list string) (tl : string) :
  Forall (fun l => no_nl l = true) ls -> no_nl tl = true ->
  lines_of (file_text ls tl) = (map (fun l => (l ++ nl)%string) ls, tl).
Proof.
  intros Hls Htl. induction Hls as [|l ls Hl Hls IH]; cbn [file_text map].
  - now apply lines_of_no_nl.
  - now apply lines_of_line.
Qed.

(** X12: of a file whose lines are [ls], each ended by a line feed, followed
    by a text [tl] without line feed, [main] takes as elements the lines,
    trimmed, that are not blank, in their order; what follows the last line
    feed is never an element. *)
Theorem main_reads_the_terminated_lines (TrimSpace : string -> string)
  (ls : list string) (tl : string) :
  Forall (fun l => no_nl l = true) ls -> no_nl tl = true ->
  read_elements TrimSpace (pending (NewReader (file_text ls tl))) =
  filter (fun el => negb (String.eqb el ""))
         (map (fun l => TrimSpace (l ++ nl)%string) ls).
Proof.
  intros Hls Htl. unfold NewReader.
  rewrite (lines_of_file_text ls tl Hls Htl). cbn [pending].
  rewrite read_elements_filter, map_map. reflexivity.
Qed.

Lemma main_reads_the_terminated_lines_witness :
  read_elements TrimSpace_ascii
    (pending (NewReader (file_text [" wash up "; ""; "sleep"] "eat")%string)) =
  ["wash up"; "sleep"]%string.
Proof.
  exact (main_reads_the_terminated_lines TrimSpace_ascii
           [" wash up "; ""; "sleep"]%string "eat"%string
           ltac:(repeat constructor) eq_refl).
Defined.

(** X13: the ways in which [main] stops before it asks anything.  With no
    file name it prints the usage line and returns; when the file cannot be
    opened it panics; and when no line of the file that ends in a line feed
    is left non-blank by trimming (whatever follows the last line feed) it
    panics with no input.  In neither case does it read from the standard
    input, and in the two panics it has printed nothing. *)
Theorem main_stops_before_asking (TrimSpace ToLower : string -> string)
  (arg0 filename : string) (args : list string)
  (files : string -> option string) (w : World) :
  main TrimSpace ToLower [arg0] files w =
    Ok tt {| stdin := stdin w;
             stdout := stdout w ++
                       [("Usage: " ++ arg0 ++ " filename" ++ nl)%string] |} /\
  (files filename = None ->
   main TrimSpace ToLower (arg0 :: filename :: args) files w =
     Panic OpenFailed w) /\
  (forall ls tl,
     files filename = Some (file_text ls tl) ->
     Forall (fun l => no_nl l = true) ls -> no_nl tl = true ->
     Forall (fun l => TrimSpace (l ++ nl)%string = EmptyString) ls ->
     main TrimSpace ToLower (arg0 :: filename :: args) files w =
       Panic NoInput w).
Proof.
  split; [reflexivity|]. split.
  - intros Hf. unfold main. now rewrite Hf.
  - intros ls tl Hf Hls Htl Hblank. unfold main. rewrite Hf.
    unfold NewReader. rewrite (lines_of_file_text ls tl Hls Htl).
    cbn [pending].
    replace (read_elements TrimSpace (map (fun l => (l ++ nl)%string) ls))
      with (@nil string); [reflexivity|].
    symmetry. clear - Hblank.
    induction Hblank as [|l ls Hl Hblank IH]; cbn [map read_elements];
      [reflexivity|].
    now rewrite Hl.
Qed.

Lemma less_asks_until_the_answer_is_valid_witness :
  less TrimSpace_ascii ToLower_ascii "x" "y"
    {| stdin := {| pending := ["?" ++ nl; nl; " A " ++ nl; "b" ++ nl]%string;
                   rest := EmptyString |};
       stdout := [] |} =
    Ok true
       {| stdin := {| pending := ["b" ++ nl]%string; rest := EmptyString |};
          stdout := [prompt "x" "y"; complaint; prompt "x" "y"; complaint;
                     prompt "x" "y"] |} /\
  less TrimSpace_ascii ToLower_ascii "x" "y"
    {| stdin := {| pending := ["?" ++ nl; nl]%string; rest := EmptyString |};
       stdout := [] |} =
    Panic ReadFailed
       {| stdin := {| pending := []; rest := EmptyString |};
          stdout := [prompt "x" "y"; complaint; prompt "x" "y"; complaint;
                     prompt "x" "y"] |}.
Proof.
  apply (less_asks_until_the_answer_is_valid TrimSpace_ascii ToLower_ascii
           "x" "y" ["?" ++ nl; nl]%string (" A " ++ nl)%string
           ["b" ++ nl]%string EmptyString []).
  - repeat (constructor; [split; vm_compute; discriminate|]). constructor.
  - left. reflexivity.
Defined.

Lemma Insert_with_a_user_who_answers_as_the_predicate_witness :
  Insert_io (less TrimSpace_ascii ToLower_ascii) "c"
    (Mk "b" (new_Node "a") Nil (-1))
    {| stdin := {| pending := ["B" ++ nl; "next" ++ nl]%string;
                   rest := EmptyString |};
       stdout := [] |} =
    Ok (Mk "b" (new_Node "a") (new_Node "c") 0, false)
       {| stdin := {| pending := ["next" ++ nl]%string; rest := EmptyString |};
          stdout := [prompt "c" "b"] |} /\
  Z.of_nat (List.length ["B" ++ nl]%string) <=
    height (Mk "b" (new_Node "a") Nil (-1)).
Proof.
  apply (Insert_with_a_user_who_answers_as_the_predicate
           TrimSpace_ascii ToLower_ascii lex_less "c"
           (Mk "b" (new_Node "a") Nil (-1))
           ["B" ++ nl]%string ["next" ++ nl]%string EmptyString []).
  repeat constructor.
Defined.

Lemma main_prints_the_elements_in_order_witness :
  main TrimSpace_ascii ToLower_ascii ["sort"; "todo.txt"]%string
    (fun name => if String.eqb name "todo.txt"
                 then Some (file_text ["b"; " a"; "c "] "")%string else None)
    {| stdin := {| pending := ["a" ++ nl; "B" ++ nl; nl; "rest" ++ nl]%string;
                   rest := EmptyString |};
       stdout := [] |} =
  Ok tt
    {| stdin := {| pending := ["rest" ++ nl]%string; rest := EmptyString |};
       stdout := [prompt "a" "b"; prompt "c" "b"; done_message;
                  "a" ++ nl; "b" ++ nl; "c" ++ nl]%string |}.
Proof.
  apply (main_prints_the_elements_in_order TrimSpace_ascii ToLower_ascii
           "sort" "todo.txt" []
           (fun name => if String.eqb name "todo.txt"
                        then Some (file_text ["b"; " a"; "c "] "")%string
                        else None)
           (file_text ["b"; " a"; "c "] "")%string lex_less
           ["a" ++ nl; "B" ++ nl]%string nl ["rest" ++ nl]%string
           EmptyString []).
  - reflexivity.
  - vm_compute. discriminate.
  - exact lex_less_consistent.
  - vm_compute. repeat constructor.
Defined.
